(** * location.py: the macOS geolocation tool server

    A shallow embedding of [src/location.py]: the process-wide location
    cache, the CoreLocation delegate, the acquisition in
    [get_current_location] with its run-loop wait, the cache tools and the
    validation of [get_location_async].

    Conventions of the model.
    - Times ([time.time()], NSDate values, the float parameters) are exact
      rationals [Q]; the rounding of float arithmetic is not modelled.
    - Python ints are [Z].
    - A Python dict built by the code is an association list in insertion
      order; [None] is the [None] of an [option].
    - A Python str is a [string]; [str.lower], which is Unicode-aware, and
      [urlparse] are library functions and are parameters of the model.
    - The platform (clock, authorization state, sensor notifications) and
      the global [_location_cache] are fields of the [World] that every
      tool threads through; the calls made to the platform are recorded in
      [calls], newest first.
    - The clock moves only while the run loop runs: [runUntilDate_] takes
      the interval it is given, every other statement takes no time.
    - A started background thread is recorded in [threads]; its
      interleaving with the caller is not modelled. *)

From Stdlib Require Import ZArith QArith Qminmax Lqa Lia List Bool String Ascii.
From Stdlib Require Import DecimalString.
Import ListNotations.

Local Open Scope string_scope.
Local Open Scope Q_scope.

(** ** Python values *)

Inductive PyVal : Type :=
| VInt (n : Z)
| VFloat (x : Q)
| VStr (s : string)
| VDate (t : Q).

Definition PyDict : Type := list (string * PyVal).

(** Truth value of a dict: a dict is true when it is not empty. *)
Definition dict_truthy (d : PyDict) : bool :=
  match d with
  | [] => false
  | _ :: _ => true
  end.

(** Truth value of an object that is a dict or [None]. *)
Definition truthy (o : option PyDict) : bool :=
  match o with
  | None => false
  | Some d => dict_truthy d
  end.

(** Truth value of a string: true when not empty. *)
Definition str_truthy (s : string) : bool :=
  match s with
  | EmptyString => false
  | String _ _ => true
  end.

(** [x < y] on rationals, as a boolean. *)
Definition Qltb (x y : Q) : bool := negb (Qle_bool y x).

(** [str(n)] for an int. *)
Definition str_of_int (n : Z) : string := NilZero.string_of_int (Z.to_int n).

(** ** CoreLocation *)

Inductive CLAccuracy : Type :=
| kCLLocationAccuracyBest
| kCLLocationAccuracyBestForNavigation
| kCLLocationAccuracyNearestTenMeters
| kCLLocationAccuracyHundredMeters
| kCLLocationAccuracyKilometer
| kCLLocationAccuracyThreeKilometers.

Inductive CLAuthorizationStatus : Type :=
| kCLAuthorizationStatusNotDetermined
| kCLAuthorizationStatusRestricted
| kCLAuthorizationStatusDenied
| kCLAuthorizationStatusAuthorizedAlways
| kCLAuthorizationStatusAuthorizedWhenInUse.

Definition is_denied (s : CLAuthorizationStatus) : bool :=
  match s with
  | kCLAuthorizationStatusDenied => true
  | _ => false
  end.

(** The CLError codes the module imports (values of CoreLocation's CLError.h). *)
Definition kCLErrorLocationUnknown : Z := 0%Z.
Definition kCLErrorDenied : Z := 1%Z.

(** An NSError as the code reads it: only [code()] is used. *)
Record CLError : Type := { code : Z }.

(** An accessor of a CLLocation either yields a value or raises; the
    message is what [str(e)] gives in the handler. *)
Inductive attr (A : Type) : Type :=
| Ok (a : A)
| Raises (msg : string).
Arguments Ok {A} a.
Arguments Raises {A} msg.

Definition attr_bind {A B : Type} (x : attr A) (k : A -> attr B) : attr B :=
  match x with
  | Ok a => k a
  | Raises m => Raises m
  end.

Record CLLocation : Type := {
  coordinate : attr (Q * Q);      (* latitude, longitude *)
  horizontalAccuracy : attr Q;
  altitude : attr Q;
  verticalAccuracy : attr Q;
  course : attr Q;
  speed : attr Q;
  loc_timestamp : attr Q
}.

(** ** The location cache *)

Record Cache : Type := {
  data : option PyDict;
  timestamp : Q;
  cache_duration : Z
}.

(** [_location_cache] as the module initialises it. *)
Definition initial_cache : Cache :=
  {| data := None; timestamp := 0; cache_duration := 30 |}.

(** ** The delegate *)

Record LocationDelegate : Type := {
  location : option CLLocation;
  location_error : option CLError;
  is_updated : bool
}.

(** [LocationDelegate.init] *)
Definition delegate_init : LocationDelegate :=
  {| location := None; location_error := None; is_updated := false |}.

(** A notification of the location manager. [DidUpdateLocations l ls]
    carries the array [l :: ls]: CoreLocation always delivers at least one
    location, so [locations[-1]] is [last ls l]. *)
Inductive SensorEvent : Type :=
| DidUpdateLocations (l : CLLocation) (ls : list CLLocation)
| DidFailWithError (e : CLError).

(** [locationManager_didUpdateLocations_] *)
Definition locationManager_didUpdateLocations_ (self : LocationDelegate)
    (l : CLLocation) (ls : list CLLocation) : LocationDelegate :=
  {| location := Some (last ls l);
     location_error := location_error self;
     is_updated := true |}.

(** [locationManager_didFailWithError_] *)
Definition locationManager_didFailWithError_ (self : LocationDelegate)
    (e : CLError) : LocationDelegate :=
  {| location := location self;
     location_error := Some e;
     is_updated := true |}.

Definition deliver (self : LocationDelegate) (ev : SensorEvent) : LocationDelegate :=
  match ev with
  | DidUpdateLocations l ls => locationManager_didUpdateLocations_ self l ls
  | DidFailWithError e => locationManager_didFailWithError_ self e
  end.

(** ** The world *)

Inductive PlatformCall : Type :=
| ManagerInit
| DelegateInit
| SetDelegate
| SetDistanceFilterNone
| SetDesiredAccuracy (a : CLAccuracy)
| RequestWhenInUseAuthorization
| AuthorizationStatus
| StartUpdatingLocation
| RunUntilDate (interval : Q)
| StopUpdatingLocation
| RequestsPost (url : string) (json : option PyDict).

(** A background task started by [get_location_async]: the closure of
    [get_location_thread] over [callback_route] and [accuracy]. *)
Record Thread : Type := {
  thread_callback_route : string;
  thread_accuracy : string
}.

Record World : Type := {
  now : Q;                                   (* what time.time() reads *)
  _location_cache : Cache;                    (* the global _location_cache *)
  authorization : CLAuthorizationStatus;     (* CLLocationManager.authorizationStatus() *)
  sensor : list (list SensorEvent);          (* notifications of the coming run-loop slices *)
  calls : list PlatformCall;                 (* platform calls so far, newest first *)
  threads : list Thread                      (* started background tasks, newest first *)
}.

Definition set_now (t : Q) (w : World) : World :=
  {| now := t; _location_cache := _location_cache w; authorization := authorization w;
     sensor := sensor w; calls := calls w; threads := threads w |}.

Definition set_cache (c : Cache) (w : World) : World :=
  {| now := now w; _location_cache := c; authorization := authorization w;
     sensor := sensor w; calls := calls w; threads := threads w |}.

Definition set_sensor (s : list (list SensorEvent)) (w : World) : World :=
  {| now := now w; _location_cache := _location_cache w; authorization := authorization w;
     sensor := s; calls := calls w; threads := threads w |}.

Definition add_call (c : PlatformCall) (w : World) : World :=
  {| now := now w; _location_cache := _location_cache w; authorization := authorization w;
     sensor := sensor w; calls := c :: calls w; threads := threads w |}.

Definition add_thread (t : Thread) (w : World) : World :=
  {| now := now w; _location_cache := _location_cache w; authorization := authorization w;
     sensor := sensor w; calls := calls w; threads := t :: threads w |}.

(** ** The monad of the tools: state, and a loop that may run out of fuel *)

Inductive Outcome (A : Type) : Type :=
| Done (a : A) (w : World)
| OutOfFuel.
Arguments Done {A} a w.
Arguments OutOfFuel {A}.

Definition M (A : Type) : Type := World -> Outcome A.

Definition ret {A : Type} (a : A) : M A := fun w => Done a w.

Definition bind {A B : Type} (m : M A) (k : A -> M B) : M B :=
  fun w => match m w with
           | Done a w' => k a w'
           | OutOfFuel => OutOfFuel
           end.

Notation "x <- m ;; k" := (bind m (fun x => k))
  (at level 61, m at next level, right associativity).
Notation "m ;;; k" := (bind m (fun _ => k))
  (at level 61, right associativity).

Definition get : M World := fun w => Done w w.
Definition modify (f : World -> World) : M unit := fun w => Done tt (f w).

Definition time_time : M Q := w <- get ;; ret (now w).
Definition read_cache : M Cache := w <- get ;; ret (_location_cache w).
Definition write_cache (c : Cache) : M unit := modify (set_cache c).
Definition call (c : PlatformCall) : M unit := modify (add_call c).

(** ** Formatting helpers *)

(** [_format_location_data]: [None] for no location; otherwise the dict of
    the eight readings, the accessors evaluated in the order of the dict
    display, or the fallback dict when one of them raises. *)
Definition _format_location_data (loc : option CLLocation) : option PyDict :=
  match loc with
  | None => None
  | Some l =>
      let formatted : attr PyDict :=
        attr_bind (coordinate l) (fun c1 =>
        attr_bind (coordinate l) (fun c2 =>
        attr_bind (horizontalAccuracy l) (fun acc =>
        attr_bind (altitude l) (fun alt =>
        attr_bind (verticalAccuracy l) (fun vacc =>
        attr_bind (course l) (fun crs =>
        attr_bind (speed l) (fun spd =>
        attr_bind (loc_timestamp l) (fun ts =>
        Ok [ ("latitude", VFloat (fst c1));
             ("longitude", VFloat (snd c2));
             ("accuracy", VFloat acc);
             ("altitude", VFloat alt);
             ("altitude_accuracy", VFloat vacc);
             ("course", VFloat crs);
             ("speed", VFloat spd);
             ("timestamp", VDate ts) ])))))))) in
      match formatted with
      | Ok d => Some d
      | Raises e => Some [("error", VStr ("Error formatting location data: " ++ e))]
      end
  end.

(** The dict [{"code": ..., "description": ...}] of [_get_error_info]. *)
Record ErrorInfo : Type := {
  info_code : Z;
  description : string
}.

(** [_get_error_info] *)
Definition _get_error_info (error : option CLError) : ErrorInfo :=
  match error with
  | None => {| info_code := 0; description := "Unknown error" |}
  | Some e =>
      let error_code := code e in
      let error_desc :=
        if (error_code =? kCLErrorLocationUnknown)%Z then
          "Unable to determine location"
        else if (error_code =? kCLErrorDenied)%Z then
          "Location services access denied. Please enable in System Preferences."
        else
          "Location services error " ++ str_of_int error_code in
      {| info_code := error_code; description := error_desc |}
  end.

(** Lower-casing of the ASCII letters of a string. On an ASCII string it
    is what [str.lower] gives; it is used where the code lower-cases text
    that is ASCII by construction, and as the instance of [str.lower] in
    the examples, whose strings are ASCII. *)
Definition ascii_lower (c : ascii) : ascii :=
  let n := N_of_ascii c in
  if ((65 <=? n) && (n <=? 90))%N then ascii_of_N (n + 32) else c.

Fixpoint lower_ascii (s : string) : string :=
  match s with
  | EmptyString => EmptyString
  | String c s' => String (ascii_lower c) (lower_ascii s')
  end.

(** [accuracy_map.get(accuracy.lower(), kCLLocationAccuracyBest)] *)
Definition accuracy_map_get (key : string) : CLAccuracy :=
  if key =? "best" then kCLLocationAccuracyBest
  else if key =? "navigation" then kCLLocationAccuracyBestForNavigation
  else if key =? "ten_meters" then kCLLocationAccuracyNearestTenMeters
  else if key =? "hundred_meters" then kCLLocationAccuracyHundredMeters
  else if key =? "kilometer" then kCLLocationAccuracyKilometer
  else if key =? "three_kilometers" then kCLLocationAccuracyThreeKilometers
  else kCLLocationAccuracyBest.

(** ** get_current_location *)

Section Location.

(** [str.lower] is Unicode-aware and belongs to Python, not to this
    module: it is a parameter of everything that follows. *)
Variable lower : string -> string.

(** The guard of the cache read:
    [use_cache and _location_cache["data"] and
     current_time - _location_cache["timestamp"] < _location_cache["cache_duration"]]. *)
Definition cache_fresh (use_cache : bool) (c : Cache) (current_time : Q) : bool :=
  use_cache && truthy (data c) &&
  Qltb (current_time - timestamp c) (inject_Z (cache_duration c)).

(** The two assignments that update the cache with a result. *)
Definition store (result : option PyDict) (current_time : Q) (c : Cache) : Cache :=
  {| data := result; timestamp := current_time; cache_duration := cache_duration c |}.

(** [NSRunLoop.currentRunLoop().runUntilDate_(now + interval)]: the run
    loop runs for [interval] seconds, and the notifications of that slice
    reach the delegate in order. *)
Definition runUntilDate (interval : Q) (delegate : LocationDelegate) : M LocationDelegate :=
  call (RunUntilDate interval) ;;;
  w <- get ;;
  modify (fun w => set_now (now w + interval) (set_sensor (tl (sensor w)) w)) ;;;
  ret (fold_left deliver (hd [] (sensor w)) delegate).

(** The wait loop:
    [while not delegate.is_updated and time.time() - start_time < timeout].
    [fuel] bounds the number of iterations of the model. *)
Fixpoint wait_loop (fuel : nat) (start_time : Q) (timeout : Z) (polling_interval : Q)
    (delegate : LocationDelegate) : M LocationDelegate :=
  t <- time_time ;;
  if negb (is_updated delegate) && Qltb (t - start_time) (inject_Z timeout) then
    match fuel with
    | O => fun _ => OutOfFuel
    | S fuel' =>
        delegate' <- runUntilDate polling_interval delegate ;;
        wait_loop fuel' start_time timeout polling_interval delegate'
    end
  else ret delegate.

(** The clamps keep the timeout at most 30 and the interval at least 0.1,
    so 300 iterations always suffice (lemma [wait_loop_terminates]). *)
Definition wait_fuel : nat := 300.

Definition clamp_timeout (timeout : Z) : Z := Z.min (Z.max 1 timeout) 30.
Definition clamp_polling_interval (polling_interval : Q) : Q :=
  Qmin (Qmax (1 # 10) polling_interval) 1.

Definition error_result (desc : string) : PyDict := [("error", VStr desc)].

Definition get_current_location (use_cache : bool) (timeout : Z) (accuracy : string)
    (polling_interval : Q) : M (option PyDict) :=
  (* Parameter validation *)
  let timeout := clamp_timeout timeout in
  let polling_interval := clamp_polling_interval polling_interval in
  (* Check cache first if enabled *)
  current_time <- time_time ;;
  cache <- read_cache ;;
  if cache_fresh use_cache cache current_time then ret (data cache)
  else
    (* Determine accuracy constant *)
    let desired_accuracy := accuracy_map_get (lower accuracy) in
    (* Create location manager and delegate *)
    call ManagerInit ;;;
    call DelegateInit ;;;
    let delegate := delegate_init in
    call SetDelegate ;;;
    (* Configure location manager *)
    call SetDistanceFilterNone ;;;
    call (SetDesiredAccuracy desired_accuracy) ;;;
    (* Request authorization and start updating location *)
    call RequestWhenInUseAuthorization ;;;
    (* Check if already denied *)
    call AuthorizationStatus ;;;
    w <- get ;;
    let auth_status := authorization w in
    if is_denied auth_status then
      ret (Some (error_result (description (_get_error_info None))))
    else
      call StartUpdatingLocation ;;;
      (* Wait for location update or timeout *)
      start_time <- time_time ;;
      delegate <- wait_loop wait_fuel start_time timeout polling_interval delegate ;;
      (* Stop updating location *)
      call StopUpdatingLocation ;;;
      (* Handle errors *)
      match location_error delegate, location delegate with
      | Some _, _ | None, None =>
          let error_info := _get_error_info (location_error delegate) in
          let result := Some (error_result (description error_info)) in
          (* Update cache with error result *)
          cache <- read_cache ;;
          write_cache (store result current_time cache) ;;;
          ret result
      | None, Some _ =>
          (* Extract and format location data *)
          let result := _format_location_data (location delegate) in
          (* Update cache *)
          cache <- read_cache ;;
          write_cache (store result current_time cache) ;;;
          ret result
      end.

(** ** The cache tools *)

Definition clear_location_cache : M PyDict :=
  cache <- read_cache ;;
  write_cache {| data := None; timestamp := 0; cache_duration := cache_duration cache |} ;;;
  ret [("status", VStr "cache_cleared")].

Definition set_cache_duration (seconds : Z) : M PyDict :=
  cache <- read_cache ;;
  write_cache {| data := data cache; timestamp := timestamp cache;
                 cache_duration := Z.max 5 (Z.min seconds 300) |} ;;;
  cache <- read_cache ;;
  ret [("cache_duration", VInt (cache_duration cache))].

(** The dict returned by [get_cache_status]. *)
Record CacheStatus : Type := {
  has_cached_data : bool;
  status_cache_duration : Z;
  seconds_since_update : Q;
  seconds_until_expiration : Q;
  is_expired : bool
}.

Definition get_cache_status : M CacheStatus :=
  cache <- read_cache ;;
  current_time <- time_time ;;
  let time_since_update := current_time - timestamp cache in
  let has_data := match data cache with Some _ => true | None => false end in
  ret {| has_cached_data := has_data;
         status_cache_duration := cache_duration cache;
         seconds_since_update := if has_data then time_since_update else 0;
         seconds_until_expiration :=
           if has_data then Qmax 0 (inject_Z (cache_duration cache) - time_since_update)
           else 0;
         is_expired :=
           if has_data then Qltb (inject_Z (cache_duration cache)) time_since_update
           else true |}.

(** ** get_location_async *)

(** The two components of [urlparse]'s result that the code reads. *)
Record ParseResult : Type := {
  scheme : string;
  netloc : string
}.

(** The body of the background task. *)
Definition get_location_thread (callback_route accuracy : string) : M unit :=
  result <- get_current_location false 10 accuracy (1 # 4) ;;
  call (RequestsPost callback_route result).

Section Async.

(** [urllib.parse.urlparse] belongs to the Python library, not to this
    module: it is a parameter, [None] standing for a raised exception. *)
Variable urlparse : string -> option ParseResult.

Definition get_location_async (callback_route : option string) (accuracy : string)
    : M PyDict :=
  match callback_route with
  | None => ret (error_result "No callback_route specified")
  | Some route =>
      if negb (str_truthy route) then ret (error_result "No callback_route specified")
      else
        match urlparse route with
        | None => ret (error_result "Invalid callback_route format")
        | Some parsed =>
            if negb (str_truthy (scheme parsed) && str_truthy (netloc parsed)) then
              ret (error_result "Invalid callback_route format. Must be a valid URL.")
            else
              (* Start thread for async processing *)
              modify (add_thread {| thread_callback_route := route;
                                    thread_accuracy := accuracy |}) ;;;
              ret [ ("status", VStr "location_request_started");
                    ("callback_route", VStr route);
                    ("accuracy", VStr accuracy) ]
        end
  end.

End Async.

(** ** Definitions used in the statements *)

(** *** The wait loop, one step at a time *)

(** The world after one run-loop slice of [p] seconds. *)
Definition run_slice (p : Q) (w : World) : World :=
  set_now (now w + p) (set_sensor (tl (sensor w)) (add_call (RunUntilDate p) w)).

(** The delegate after the notifications of the next slice. *)
Definition notify (d : LocationDelegate) (w : World) : LocationDelegate :=
  fold_left deliver (hd [] (sensor w)) d.

(** The loop condition. *)
Definition waiting (start_time : Q) (timeout : Z) (d : LocationDelegate) (w : World) : bool :=
  negb (is_updated d) && Qltb (now w - start_time) (inject_Z timeout).

(** No notification in any of the slices [s] that starts before the
    timeout has elapsed; [t] is the clock at the start of the first of
    them, and every slice takes [p] seconds. *)
Fixpoint quiet_before (start_time : Q) (timeout : Z) (p : Q) (t : Q)
    (s : list (list SensorEvent)) : bool :=
  match s with
  | [] => true
  | evs :: rest =>
      (negb (Qltb (t - start_time) (inject_Z timeout)) ||
       match evs with [] => true | _ :: _ => false end) &&
      quiet_before start_time timeout p (t + p) rest
  end.

(** The sensor stays silent for a whole call made in [w] with the given
    parameters: no notification before the clamped timeout has elapsed. *)
Definition silent (timeout : Z) (polling_interval : Q) (w : World) : bool :=
  quiet_before (now w) (clamp_timeout timeout) (clamp_polling_interval polling_interval)
    (now w) (sensor w).

(** *** The paths of get_current_location *)

(** The world after the manager is created and configured and the
    authorization state is read (everything up to the test for denial). *)
Definition prelude (accuracy : string) (w : World) : World :=
  add_call AuthorizationStatus
    (add_call RequestWhenInUseAuthorization
      (add_call (SetDesiredAccuracy (accuracy_map_get (lower accuracy)))
        (add_call SetDistanceFilterNone
          (add_call SetDelegate
            (add_call DelegateInit
              (add_call ManagerInit w)))))).

(** The result built from the delegate once the loop has exited. *)
Definition outcome_of (d : LocationDelegate) : option PyDict :=
  match location_error d, location d with
  | Some _, _ | None, None =>
      Some (error_result (description (_get_error_info (location_error d))))
  | None, Some _ => _format_location_data (location d)
  end.

(** The world after the loop: the manager stopped and the result cached
    under the time read at the start of the call. *)
Definition finish (current_time : Q) (d : LocationDelegate) (wl : World) : World :=
  set_cache (store (outcome_of d) current_time (_location_cache wl))
            (add_call StopUpdatingLocation wl).

(** *** Callback routes *)

(** A callback route that passes the module's check: it is not empty and
    parses with a scheme and a network location. *)
Definition has_scheme_and_host (urlparse : string -> option ParseResult)
    (callback_route : option string) : Prop :=
  exists route parsed,
    callback_route = Some route /\
    route <> "" /\
    urlparse route = Some parsed /\
    scheme parsed <> "" /\ netloc parsed <> "".

(** *** A model of [urlparse] for the examples

    The scheme and the network location as [urllib.parse.urlsplit] finds
    them. Leading characters up to the space are stripped and tabs and
    line breaks are removed; the scheme is the text before the first colon
    when it starts with a letter and consists of scheme characters,
    lower-cased; the network location is what follows a leading [//] up to
    the first of [/], [?], [#]; unbalanced square brackets in it raise.
    The further checks that [urlsplit] makes on a network location with
    non-ASCII characters or with a bracketed host are not modelled: the
    examples use ASCII routes without brackets. *)

Definition is_ascii_alpha (c : ascii) : bool :=
  let n := N_of_ascii c in
  ((65 <=? n) && (n <=? 90) || (97 <=? n) && (n <=? 122))%N.

Definition is_scheme_char (c : ascii) : bool :=
  let n := N_of_ascii c in
  is_ascii_alpha c || ((48 <=? n) && (n <=? 57))%N ||
  (c =? "+")%char || (c =? "-")%char || (c =? ".")%char.

Fixpoint string_forallb (f : ascii -> bool) (s : string) : bool :=
  match s with
  | EmptyString => true
  | String c s' => f c && string_forallb f s'
  end.

Fixpoint string_mem (c : ascii) (s : string) : bool :=
  match s with
  | EmptyString => false
  | String c' s' => (c =? c')%char || string_mem c s'
  end.

(** [url[:i]] and [url[i+1:]] for [i = url.find(':')]. *)
Fixpoint split_colon (url : string) : option (string * string) :=
  match url with
  | EmptyString => None
  | String c s' =>
      if (c =? ":")%char then Some (EmptyString, s')
      else match split_colon s' with
           | Some (pre, post) => Some (String c pre, post)
           | None => None
           end
  end.

(** The text up to the first of [/], [?], [#]. *)
Fixpoint take_netloc (s : string) : string :=
  match s with
  | EmptyString => EmptyString
  | String c s' =>
      if string_mem c "/?#" then EmptyString else String c (take_netloc s')
  end.

(** [url.lstrip(_WHATWG_C0_CONTROL_OR_SPACE)] *)
Fixpoint lstrip_c0 (s : string) : string :=
  match s with
  | EmptyString => EmptyString
  | String c s' => if (N_of_ascii c <=? 32)%N then lstrip_c0 s' else s
  end.

(** The removal of tab, carriage return and line feed. *)
Fixpoint remove_unsafe (s : string) : string :=
  match s with
  | EmptyString => EmptyString
  | String c s' =>
      let n := N_of_ascii c in
      if ((n =? 9) || (n =? 13) || (n =? 10))%N then remove_unsafe s'
      else String c (remove_unsafe s')
  end.

Definition urlparse_model (url : string) : option ParseResult :=
  let url := remove_unsafe (lstrip_c0 url) in
  let '(sch, rest) :=
    match split_colon url with
    | Some (String c pre, post) =>
        if is_ascii_alpha c && string_forallb is_scheme_char (String c pre)
        then (lower_ascii (String c pre), post)
        else (EmptyString, url)
    | _ => (EmptyString, url)
    end in
  match rest with
  | String "/" (String "/" rest') =>
      let nl := take_netloc rest' in
      if xorb (string_mem "[" nl) (string_mem "]" nl) then None
      else Some {| scheme := sch; netloc := nl |}
  | _ => Some {| scheme := sch; netloc := EmptyString |}
  end.

(** The host part of a network location, as the [hostname] property of
    the parse result finds it before lower-casing it: the text after the
    last [@], up to the first colon, or between square brackets. The
    property is [None] when this text is empty. *)
Fixpoint after_last (sep : ascii) (s : string) : string :=
  match s with
  | EmptyString => EmptyString
  | String c s' =>
      if string_mem sep s' then after_last sep s'
      else if (c =? sep)%char then s' else s
  end.

Fixpoint before_first (sep : ascii) (s : string) : string :=
  match s with
  | EmptyString => EmptyString
  | String c s' =>
      if (c =? sep)%char then EmptyString else String c (before_first sep s')
  end.

Fixpoint after_first (sep : ascii) (s : string) : option string :=
  match s with
  | EmptyString => None
  | String c s' => if (c =? sep)%char then Some s' else after_first sep s'
  end.

Definition hostinfo_hostname (netloc : string) : string :=
  let hostinfo := after_last "@" netloc in
  match after_first "[" hostinfo with
  | Some bracketed => before_first "]" bracketed
  | None => before_first ":" hostinfo
  end.

Definition has_hostname (netloc : string) : bool :=
  str_truthy (hostinfo_hostname netloc).

(** *** Worlds used in the examples *)

Definition example_location : CLLocation :=
  {| coordinate := Ok (3777 # 100, - (12242 # 100));
     horizontalAccuracy := Ok 5;
     altitude := Ok 16;
     verticalAccuracy := Ok 3;
     course := Ok 90;
     speed := Ok 0;
     loc_timestamp := Ok 99 |}.

Definition example_fix : PyDict :=
  [ ("latitude", VFloat (3777 # 100)); ("longitude", VFloat (- (12242 # 100)));
    ("accuracy", VFloat 5); ("altitude", VFloat 16);
    ("altitude_accuracy", VFloat 3); ("course", VFloat 90);
    ("speed", VFloat 0); ("timestamp", VDate 99) ].

(** A fix cached at time 100 under the default duration of 30 seconds. *)
Definition example_cache : Cache :=
  {| data := Some example_fix; timestamp := 100; cache_duration := 30 |}.

(** An authorized platform at time 100, nothing cached, a silent sensor. *)
Definition quiet_world : World :=
  {| now := 100; _location_cache := initial_cache;
     authorization := kCLAuthorizationStatusAuthorizedWhenInUse;
     sensor := []; calls := []; threads := [] |}.

(** As [quiet_world], with a fix that the sensor delivers only in the
    third run-loop slice. *)
Definition late_world : World :=
  set_sensor [[]; []; [DidUpdateLocations example_location []]] quiet_world.

(** A platform that denies authorization, ten seconds after a fix was cached. *)
Definition denied_world : World :=
  {| now := 110; _location_cache := example_cache;
     authorization := kCLAuthorizationStatusDenied;
     sensor := []; calls := []; threads := [] |}.

(** The cached fix exactly [cache_duration] seconds after it was stored. *)
Definition boundary_world : World :=
  {| now := 130; _location_cache := example_cache;
     authorization := kCLAuthorizationStatusAuthorizedWhenInUse;
     sensor := []; calls := []; threads := [] |}.

(** As [quiet_world], with a silent first slice and then a slice in which
    the sensor reports a fix and, after it, an error. *)
Definition mixed_world : World :=
  set_sensor [[]; [DidUpdateLocations example_location [];
                   DidFailWithError {| code := 1 |}]] quiet_world.

(** *** What the tools keep true of the cache

    The duration is within its bounds, the data is [None] or a non-empty
    dict, and the timestamp is not negative and not in the future. *)
Definition cache_inv (w : World) : Prop :=
  (5 <= cache_duration (_location_cache w) <= 300)%Z /\
  (data (_location_cache w) = None \/ truthy (data (_location_cache w)) = true) /\
  0 <= timestamp (_location_cache w) /\
  timestamp (_location_cache w) <= now w.

(** * Properties *)

(** ** Arithmetic of the comparisons and clamps *)

Lemma Qltb_lt (x y : Q) : Qltb x y = true <-> x < y.
Proof.
  unfold Qltb. rewrite negb_true_iff. split.
  - intros H. apply Qnot_le_lt. intros Hle.
    apply Qle_bool_iff in Hle. congruence.
  - intros H. destruct (Qle_bool y x) eqn:E; [|reflexivity].
    apply Qle_bool_iff in E. lra.
Qed.

Lemma Qltb_ge (x y : Q) : Qltb x y = false <-> y <= x.
Proof.
  unfold Qltb. rewrite negb_false_iff. apply Qle_bool_iff.
Qed.

Lemma clamp_timeout_range (timeout : Z) : (1 <= clamp_timeout timeout <= 30)%Z.
Proof. unfold clamp_timeout. lia. Qed.

Lemma clamp_timeout_in_range (timeout : Z) :
  (1 <= timeout <= 30)%Z -> clamp_timeout timeout = timeout.
Proof. unfold clamp_timeout. lia. Qed.

Lemma clamp_polling_interval_range (p : Q) :
  1 # 10 <= clamp_polling_interval p /\ clamp_polling_interval p <= 1.
Proof.
  unfold clamp_polling_interval. split.
  - apply Q.min_glb; [apply Q.le_max_l | lra].
  - apply Q.le_min_r.
Qed.



(** ** The wait loop *)

Lemma wait_loop_O start timeout p d w :
  wait_loop 0 start timeout p d w =
  if waiting start timeout d w then OutOfFuel else Done d w.
Proof.
  simpl. unfold time_time, bind, get, ret, waiting.
  destruct (negb (is_updated d) && Qltb (now w - start) (inject_Z timeout)); reflexivity.
Qed.

Lemma wait_loop_S fuel start timeout p d w :
  wait_loop (S fuel) start timeout p d w =
  if waiting start timeout d w
  then wait_loop fuel start timeout p (notify d w) (run_slice p w)
  else Done d w.
Proof.
  simpl. unfold bind at 1. unfold time_time, bind, get, ret, waiting.
  destruct (negb (is_updated d) && Qltb (now w - start) (inject_Z timeout)); reflexivity.
Qed.

Lemma inject_Z_of_nat_S (n : nat) :
  inject_Z (Z.of_nat (S n)) == inject_Z (Z.of_nat n) + 1.
Proof.
  rewrite Nat2Z.inj_succ. unfold Z.succ. rewrite inject_Z_plus. reflexivity.
Qed.

(** The loop returns when the fuel covers the time that is left. *)
Lemma wait_loop_terminates_gen (start : Q) (timeout : Z) (p : Q) :
  forall (fuel : nat) (d : LocationDelegate) (w : World),
    inject_Z timeout <= (now w - start) + inject_Z (Z.of_nat fuel) * p ->
    exists d' w', wait_loop fuel start timeout p d w = Done d' w'.
Proof.
  induction fuel as [|fuel IH]; intros d w Hfuel.
  - rewrite wait_loop_O. unfold waiting.
    destruct (Qltb (now w - start) (inject_Z timeout)) eqn:E.
    + apply Qltb_lt in E. change (inject_Z (Z.of_nat 0)) with 0 in Hfuel. lra.
    + rewrite andb_false_r. eauto.
  - rewrite wait_loop_S. destruct (waiting start timeout d w); [|eauto].
    apply IH. change (now (run_slice p w)) with (now w + p).
    pose proof (inject_Z_of_nat_S fuel) as HS.
    assert (Hmul : inject_Z (Z.of_nat (S fuel)) * p == inject_Z (Z.of_nat fuel) * p + p)
      by (rewrite HS; ring).
    rewrite Hmul in Hfuel. clear HS Hmul.
    set (x := inject_Z (Z.of_nat fuel) * p) in *. lra.
Qed.

(** With the clamped parameters, [wait_fuel] iterations are enough. *)
Lemma wait_loop_terminates (timeout : Z) (p : Q) (d : LocationDelegate) (w : World) :
  exists d' w',
    wait_loop wait_fuel (now w) (clamp_timeout timeout) (clamp_polling_interval p) d w
    = Done d' w'.
Proof.
  apply wait_loop_terminates_gen.
  pose proof (clamp_timeout_range timeout) as [_ Ht].
  pose proof (clamp_polling_interval_range p) as [Hp _].
  assert (Ht' : inject_Z (clamp_timeout timeout) <= 30).
  { change 30 with (inject_Z 30). rewrite <- Zle_Qle. exact Ht. }
  change (inject_Z (Z.of_nat wait_fuel)) with 300.
  lra.
Qed.

(** What the loop leaves alone, and what it changes. *)
Lemma wait_loop_frame (start : Q) (timeout : Z) (p : Q) (Hp : 0 <= p) :
  forall (fuel : nat) (d d' : LocationDelegate) (w w' : World),
    wait_loop fuel start timeout p d w = Done d' w' ->
    _location_cache w' = _location_cache w /\
    authorization w' = authorization w /\
    threads w' = threads w /\
    now w <= now w' /\
    exists n, calls w' = (repeat (RunUntilDate p) n ++ calls w)%list.
Proof.
  induction fuel as [|fuel IH]; intros d d' w w' H.
  - rewrite wait_loop_O in H. destruct (waiting start timeout d w); [discriminate|].
    injection H as <- <-. repeat split; try lra. exists 0%nat. reflexivity.
  - rewrite wait_loop_S in H. destruct (waiting start timeout d w).
    + apply IH in H. destruct H as (Hc & Ha & Ht & Hn & n & Hcalls).
      simpl in *. repeat split; try assumption; try lra.
      exists (S n). rewrite Hcalls.
      change (RunUntilDate p :: calls w) with ([RunUntilDate p] ++ calls w)%list.
      rewrite app_assoc. f_equal.
      change [RunUntilDate p] with (repeat (RunUntilDate p) 1).
      rewrite <- repeat_app. f_equal. lia.
    + injection H as <- <-. repeat split; try lra. exists 0%nat. reflexivity.
Qed.

(** When the loop exits, a notification has arrived or the timeout has elapsed. *)
Lemma wait_loop_exit (start : Q) (timeout : Z) (p : Q) :
  forall (fuel : nat) (d d' : LocationDelegate) (w w' : World),
    wait_loop fuel start timeout p d w = Done d' w' ->
    is_updated d' = true \/ inject_Z timeout <= now w' - start.
Proof.
  induction fuel as [|fuel IH]; intros d d' w w' H.
  - rewrite wait_loop_O in H. destruct (waiting start timeout d w) eqn:E; [discriminate|].
    injection H as <- <-. unfold waiting in E.
    apply andb_false_iff in E. destruct E as [E|E].
    + left. now apply negb_false_iff.
    + right. now apply Qltb_ge.
  - rewrite wait_loop_S in H. destruct (waiting start timeout d w) eqn:E.
    + eapply IH; eassumption.
    + injection H as <- <-. unfold waiting in E.
      apply andb_false_iff in E. destruct E as [E|E].
      * left. now apply negb_false_iff.
      * right. now apply Qltb_ge.
Qed.

(** With a sensor that is quiet until the timeout the delegate is left as
    it was. *)
Lemma wait_loop_quiet (start : Q) (timeout : Z) (p : Q) :
  forall (fuel : nat) (d d' : LocationDelegate) (w w' : World),
    quiet_before start timeout p (now w) (sensor w) = true ->
    wait_loop fuel start timeout p d w = Done d' w' ->
    d' = d.
Proof.
  induction fuel as [|fuel IH]; intros d d' w w' Hq H.
  - rewrite wait_loop_O in H. destruct (waiting start timeout d w); [discriminate|].
    now injection H as <- <-.
  - rewrite wait_loop_S in H. destruct (waiting start timeout d w) eqn:Hw.
    + unfold waiting in Hw. apply andb_true_iff in Hw. destruct Hw as [_ Hlt].
      assert (Hstep : notify d w = d /\
                      quiet_before start timeout p (now (run_slice p w))
                        (sensor (run_slice p w)) = true).
      { unfold notify. simpl. destruct (sensor w) as [|evs rest]; [split; reflexivity|].
        simpl in Hq. rewrite Hlt in Hq. simpl in Hq.
        destruct evs; [|discriminate Hq]. split; [reflexivity | exact Hq]. }
      destruct Hstep as [Hn Hq'].
      apply IH in H; [|exact Hq']. now rewrite H.
    + now injection H as <- <-.
Qed.

(** ** The three paths of get_current_location *)

Ltac run_tool :=
  cbv beta iota zeta delta [get_current_location bind ret time_time read_cache get
                       call modify write_cache].

Lemma get_current_location_hit use_cache timeout accuracy polling_interval w :
  cache_fresh use_cache (_location_cache w) (now w) = true ->
  get_current_location use_cache timeout accuracy polling_interval w
  = Done (data (_location_cache w)) w.
Proof. intros H. run_tool. rewrite H. reflexivity. Qed.

Lemma get_current_location_denied use_cache timeout accuracy polling_interval w :
  cache_fresh use_cache (_location_cache w) (now w) = false ->
  is_denied (authorization w) = true ->
  get_current_location use_cache timeout accuracy polling_interval w
  = Done (Some (error_result "Unknown error")) (prelude accuracy w).
Proof.
  intros H Hd. run_tool. rewrite H.
  change (authorization (add_call AuthorizationStatus _)) with (authorization w).
  rewrite Hd. reflexivity.
Qed.

Lemma get_current_location_acquire use_cache timeout accuracy polling_interval w :
  cache_fresh use_cache (_location_cache w) (now w) = false ->
  is_denied (authorization w) = false ->
  get_current_location use_cache timeout accuracy polling_interval w
  = match wait_loop wait_fuel (now w) (clamp_timeout timeout)
            (clamp_polling_interval polling_interval) delegate_init
            (add_call StartUpdatingLocation (prelude accuracy w)) with
    | Done d wl => Done (outcome_of d) (finish (now w) d wl)
    | OutOfFuel => OutOfFuel
    end.
Proof.
  intros H Hd. run_tool. rewrite H.
  change (authorization (add_call AuthorizationStatus _)) with (authorization w).
  rewrite Hd.
  change (now (add_call StartUpdatingLocation _)) with (now w).
  fold (prelude accuracy w).
  destruct (wait_loop _ _ _ _ _ _) as [d wl|]; [|reflexivity].
  unfold finish, outcome_of.
  destruct (location_error d), (location d); reflexivity.
Qed.

(** The call always returns: the wait loop never exhausts [wait_fuel]. *)
Lemma get_current_location_returns use_cache timeout accuracy polling_interval w :
  exists r w',
    get_current_location use_cache timeout accuracy polling_interval w = Done r w'.
Proof.
  destruct (cache_fresh use_cache (_location_cache w) (now w)) eqn:H.
  - rewrite get_current_location_hit by assumption. eauto.
  - destruct (is_denied (authorization w)) eqn:Hd.
    + rewrite get_current_location_denied by assumption. eauto.
    + rewrite get_current_location_acquire by assumption.
      destruct (wait_loop_terminates timeout polling_interval delegate_init
                  (add_call StartUpdatingLocation (prelude accuracy w)))
        as (d & wl & Hl).
      change (now (add_call StartUpdatingLocation (prelude accuracy w)))
        with (now w) in Hl.
      rewrite Hl. eauto.
Qed.

(** Every result of an acquisition is a non-empty dict. *)
Lemma outcome_of_truthy (d : LocationDelegate) : truthy (outcome_of d) = true.
Proof.
  unfold outcome_of.
  destruct (location_error d) as [e|]; [reflexivity|].
  destruct (location d) as [l|]; [|reflexivity].
  unfold _format_location_data.
  destruct (coordinate l), (horizontalAccuracy l), (altitude l), (verticalAccuracy l),
    (course l), (speed l), (loc_timestamp l); reflexivity.
Qed.

Example format_example_location :
  _format_location_data (Some example_location) = Some example_fix.
Proof. reflexivity. Qed.

Example get_error_info_unknown :
  description (_get_error_info (Some {| code := 0 |})) = "Unable to determine location".
Proof. reflexivity. Qed.

Example get_error_info_other :
  description (_get_error_info (Some {| code := 7 |})) = "Location services error 7".
Proof. reflexivity. Qed.

(** ** The cache tools *)

Lemma set_cache_duration_run (seconds : Z) (w : World) :
  set_cache_duration seconds w
  = Done [("cache_duration", VInt (Z.max 5 (Z.min seconds 300)))]
         (set_cache {| data := data (_location_cache w);
                       timestamp := timestamp (_location_cache w);
                       cache_duration := Z.max 5 (Z.min seconds 300) |} w).
Proof. reflexivity. Qed.

(** C7. For every integer [seconds], [set_cache_duration] stores and returns
    one duration [d] between 5 and 300, leaving the cached data and its
    timestamp alone; inputs up to 5 (such as 1) give 5, inputs from 300 on
    (such as 1000) give 300, and an input already in the range is stored
    unchanged. *)
Theorem set_cache_duration_clamp (seconds : Z) (w : World) :
  exists d : Z,
    set_cache_duration seconds w
    = Done [("cache_duration", VInt d)]
           (set_cache {| data := data (_location_cache w);
                         timestamp := timestamp (_location_cache w);
                         cache_duration := d |} w) /\
    (5 <= d <= 300)%Z /\
    ((5 <= seconds <= 300)%Z -> d = seconds) /\
    ((seconds <= 5)%Z -> d = 5%Z) /\
    ((300 <= seconds)%Z -> d = 300%Z).
Proof.
  exists (Z.max 5 (Z.min seconds 300)).
  split; [apply set_cache_duration_run|]. lia.
Qed.

Lemma set_cache_duration_clamp_witness :
  set_cache_duration 1 quiet_world
  = Done [("cache_duration", VInt 5)]
         (set_cache {| data := None; timestamp := 0; cache_duration := 5 |} quiet_world) /\
  set_cache_duration 1000 quiet_world
  = Done [("cache_duration", VInt 300)]
         (set_cache {| data := None; timestamp := 0; cache_duration := 300 |} quiet_world) /\
  set_cache_duration 42 quiet_world
  = Done [("cache_duration", VInt 42)]
         (set_cache {| data := None; timestamp := 0; cache_duration := 42 |} quiet_world).
Proof.
  destruct (set_cache_duration_clamp 1 quiet_world) as (d1 & E1 & _ & _ & L1 & _).
  destruct (set_cache_duration_clamp 1000 quiet_world) as (d2 & E2 & _ & _ & _ & H2).
  destruct (set_cache_duration_clamp 42 quiet_world) as (d3 & E3 & _ & I3 & _ & _).
  rewrite E1, E2, E3.
  rewrite (L1 ltac:(lia)), (H2 ltac:(lia)), (I3 ltac:(lia)).
  repeat split.
Defined.

(** C10. [clear_location_cache] empties the data and resets the timestamp
    to 0 but keeps the configured duration, which a following
    [get_cache_status] reports. *)
Theorem clear_location_cache_keeps_duration (w : World) :
  exists w',
    clear_location_cache w = Done [("status", VStr "cache_cleared")] w' /\
    data (_location_cache w') = None /\
    timestamp (_location_cache w') = 0 /\
    cache_duration (_location_cache w') = cache_duration (_location_cache w) /\
    exists st,
      get_cache_status w' = Done st w' /\
      status_cache_duration st = cache_duration (_location_cache w).
Proof.
  eexists. split; [reflexivity|]. repeat split.
  eexists. split; reflexivity.
Qed.

(** *** get_cache_status *)

Lemma get_cache_status_run (w : World) :
  exists st, get_cache_status w = Done st w.
Proof. eexists. reflexivity. Qed.

(** What the status reports for a stored entry: expiry is the strict
    comparison [now - t > d]. *)
Lemma get_cache_status_stored (w : World) (r : PyDict) :
  data (_location_cache w) = Some r ->
  exists st,
    get_cache_status w = Done st w /\
    has_cached_data st = true /\
    seconds_since_update st = now w - timestamp (_location_cache w) /\
    seconds_until_expiration st
    = Qmax 0 (inject_Z (cache_duration (_location_cache w))
              - (now w - timestamp (_location_cache w))) /\
    (is_expired st = true <->
     inject_Z (cache_duration (_location_cache w)) < now w - timestamp (_location_cache w)).
Proof.
  intros Hd. eexists. split; [reflexivity|].
  cbn. rewrite Hd. repeat split; try apply Qltb_lt.
Qed.

Lemma get_cache_status_empty (w : World) :
  data (_location_cache w) = None ->
  exists st,
    get_cache_status w = Done st w /\
    has_cached_data st = false /\
    seconds_since_update st = 0 /\
    seconds_until_expiration st = 0 /\
    is_expired st = true.
Proof.
  intros Hd. eexists. split; [reflexivity|].
  cbn. rewrite Hd. repeat split.
Qed.

(** At the boundary [now - t = d] the entry is no longer fresh for
    [get_current_location], yet the status does not report it expired. *)
Lemma get_cache_status_boundary_gap (w : World) (r : PyDict) :
  data (_location_cache w) = Some r ->
  now w - timestamp (_location_cache w) == inject_Z (cache_duration (_location_cache w)) ->
  cache_fresh true (_location_cache w) (now w) = false /\
  exists st, get_cache_status w = Done st w /\ is_expired st = false.
Proof.
  intros Hd Heq. split.
  - unfold cache_fresh. apply andb_false_iff. right. apply Qltb_ge. lra.
  - eexists. split; [reflexivity|]. cbn. rewrite Hd. apply Qltb_ge. lra.
Qed.

(** C2. A fix stored at time 100 with duration 30, queried at time 130:
    the entry is not fresh ([130 - 100 < 30] fails, so
    [get_current_location] does not serve it and starts an acquisition),
    but [get_cache_status] reports [is_expired = false], with 0 seconds
    until expiration. *)
Theorem get_cache_status_boundary :
  cache_fresh true (_location_cache boundary_world) (now boundary_world) = false /\
  (exists st,
     get_cache_status boundary_world = Done st boundary_world /\
     has_cached_data st = true /\
     seconds_since_update st == 30 /\
     seconds_until_expiration st == 0 /\
     is_expired st = false) /\
  (exists r w',
     get_current_location true 15 "best" (1 # 4) boundary_world = Done r w' /\
     In StartUpdatingLocation (calls w')).
Proof.
  split; [reflexivity|]. split.
  - eexists. split; [reflexivity|]. repeat split.
  - eexists. eexists. split; [vm_compute; reflexivity|].
    vm_compute. tauto.
Qed.

(** ** Parameter clamps of get_current_location *)



(** ** Freshness of the cache read *)

Lemma cache_fresh_iff (use_cache : bool) (c : Cache) (t : Q) :
  cache_fresh use_cache c t = true <->
  use_cache = true /\ truthy (data c) = true /\
  t - timestamp c < inject_Z (cache_duration c).
Proof.
  unfold cache_fresh. rewrite !andb_true_iff, Qltb_lt. tauto.
Qed.

(** A call that is not answered from the cache talks to the platform:
    its record of platform calls grows. *)
Lemma get_current_location_miss_calls use_cache timeout accuracy polling_interval w r w' :
  cache_fresh use_cache (_location_cache w) (now w) = false ->
  get_current_location use_cache timeout accuracy polling_interval w = Done r w' ->
  (List.length (calls w) < List.length (calls w'))%nat.
Proof.
  intros Hf H.
  destruct (is_denied (authorization w)) eqn:Hd.
  - rewrite get_current_location_denied in H by assumption.
    injection H as _ <-. simpl. lia.
  - rewrite get_current_location_acquire in H by assumption.
    destruct (wait_loop _ _ _ _ _ _) as [d wl|] eqn:Hl; [|discriminate].
    injection H as _ <-.
    apply wait_loop_frame in Hl; [|apply Qle_trans with (1 # 10);
                                    [lra | apply clamp_polling_interval_range]].
    destruct Hl as (_ & _ & _ & _ & n & Hc).
    simpl. rewrite Hc, length_app. simpl. lia.
Qed.

(** C5. Store an outcome [r] at time [t1] in the cache of any world and
    read the clock [t2] later: the guard of the cache read holds exactly
    when [t2 - t1 < d], [d] being the configured duration, and
    [get_current_location(use_cache=true)] returns [r] with the world left
    as it was (no platform call) exactly in that case. *)
Theorem cache_read_fresh_iff
    (t1 t2 : Q) (r : PyDict) (w0 : World) (timeout : Z) (accuracy : string)
    (polling_interval : Q) :
  dict_truthy r = true ->
  let d := cache_duration (_location_cache w0) in
  let w := set_now t2 (set_cache (store (Some r) t1 (_location_cache w0)) w0) in
  (cache_fresh true (_location_cache w) (now w) = true <-> t2 - t1 < inject_Z d) /\
  (get_current_location true timeout accuracy polling_interval w = Done (Some r) w
   <-> t2 - t1 < inject_Z d).
Proof.
  intros Hr d w.
  assert (Hfresh : cache_fresh true (_location_cache w) (now w) = true
                   <-> t2 - t1 < inject_Z d).
  { rewrite cache_fresh_iff. subst w d. simpl. rewrite Hr. tauto. }
  split; [exact Hfresh|]. split.
  - intros Hcall.
    destruct (cache_fresh true (_location_cache w) (now w)) eqn:Hf.
    + now apply Hfresh.
    + apply get_current_location_miss_calls in Hcall; [lia | assumption].
  - intros Hlt. apply Hfresh in Hlt.
    rewrite get_current_location_hit by assumption. reflexivity.
Qed.

(** ** get_location_async *)

Lemma str_truthy_false (s : string) : str_truthy s = false <-> s = "".
Proof. destruct s; simpl; split; intros H; congruence. Qed.

(** C8, amended. Whatever [urlparse] does: when the callback route is
    missing or empty, or does not parse, or parses with an empty scheme or
    an empty network location (user, host and port together),
    [get_location_async] returns an error dict and the world it was called
    in: no background task is started, no platform call is made (no
    acquisition), and the cache is as before. The test is on the network
    location, not on the host. *)
Theorem get_location_async_rejects
    (urlparse : string -> option ParseResult)
    (callback_route : option string) (accuracy : string) (w : World) :
  ~ has_scheme_and_host urlparse callback_route ->
  exists msg w',
    get_location_async urlparse callback_route accuracy w = Done (error_result msg) w' /\
    threads w' = threads w /\
    calls w' = calls w /\
    _location_cache w' = _location_cache w /\
    w' = w.
Proof.
  intros Hbad. unfold get_location_async.
  destruct callback_route as [route|]; [|eexists; eexists; repeat split].
  destruct (str_truthy route) eqn:Hroute; simpl; [|eexists; eexists; repeat split].
  destruct (urlparse route) as [parsed|] eqn:Hparse; [|eexists; eexists; repeat split].
  destruct (str_truthy (scheme parsed)) eqn:Hs; simpl; [|eexists; eexists; repeat split].
  destruct (str_truthy (netloc parsed)) eqn:Hn; simpl; [|eexists; eexists; repeat split].
  exfalso. apply Hbad. exists route, parsed. repeat split; try assumption.
  - intros E. apply str_truthy_false in E. congruence.
  - intros E. apply str_truthy_false in E. congruence.
  - intros E. apply str_truthy_false in E. congruence.
Qed.

(** When the route is not empty and has a scheme and a network location,
    the request is accepted and exactly one background task is started. *)
Lemma get_location_async_accepts
    (urlparse : string -> option ParseResult)
    (route : string) (parsed : ParseResult) (accuracy : string) (w : World) :
  route <> "" ->
  urlparse route = Some parsed ->
  scheme parsed <> "" -> netloc parsed <> "" ->
  get_location_async urlparse (Some route) accuracy w
  = Done [ ("status", VStr "location_request_started");
           ("callback_route", VStr route);
           ("accuracy", VStr accuracy) ]
         (add_thread {| thread_callback_route := route; thread_accuracy := accuracy |} w).
Proof.
  intros Hr Hp Hs Hn. unfold get_location_async.
  destruct (str_truthy route) eqn:E0; [|apply str_truthy_false in E0; congruence].
  simpl. rewrite Hp.
  destruct (str_truthy (scheme parsed)) eqn:E1; [|apply str_truthy_false in E1; congruence].
  destruct (str_truthy (netloc parsed)) eqn:E2; [|apply str_truthy_false in E2; congruence].
  reflexivity.
Qed.

Example urlparse_model_http :
  urlparse_model "HTTP://localhost:8080/location?x=1"
  = Some {| scheme := "http"; netloc := "localhost:8080" |}.
Proof. reflexivity. Qed.

Example urlparse_model_not_a_url :
  urlparse_model "not-a-url" = Some {| scheme := ""; netloc := "" |}.
Proof. reflexivity. Qed.

Example get_location_async_started :
  get_location_async urlparse_model (Some "http://localhost:8080/location") "best" quiet_world
  = Done [ ("status", VStr "location_request_started");
           ("callback_route", VStr "http://localhost:8080/location");
           ("accuracy", VStr "best") ]
         (add_thread {| thread_callback_route := "http://localhost:8080/location";
                        thread_accuracy := "best" |} quiet_world).
Proof. reflexivity. Qed.

Lemma get_location_async_rejects_witness :
  exists msg w',
    get_location_async urlparse_model (Some "not-a-url") "best" quiet_world
    = Done (error_result msg) w' /\
    threads w' = threads quiet_world /\
    calls w' = calls quiet_world /\
    _location_cache w' = _location_cache quiet_world /\
    w' = quiet_world.
Proof.
  apply (get_location_async_rejects urlparse_model (Some "not-a-url") "best" quiet_world).
  intros (route & parsed & Hroute & _ & Hparse & Hs & _).
  injection Hroute as <-. vm_compute in Hparse.
  injection Hparse as <-. apply Hs. reflexivity.
Defined.

Example urlparse_model_leading_space :
  urlparse_model " http://example.com/cb"
  = Some {| scheme := "http"; netloc := "example.com" |}.
Proof. reflexivity. Qed.

Example hostname_examples :
  hostinfo_hostname "user:pw@Example.com:8080" = "Example.com" /\
  hostinfo_hostname "[::1]:8080" = "::1" /\
  hostinfo_hostname ":8080" = "" /\
  hostinfo_hostname "@" = "".
Proof. repeat split. Qed.

(** C8, as stated, fails: the route "http://:8080/cb" has a scheme and a
    network location, ":8080", but no host; the code tests the network
    location, so it accepts the route and starts a background task. *)
Lemma route_without_host_accepted :
  urlparse_model "http://:8080/cb" = Some {| scheme := "http"; netloc := ":8080" |} /\
  has_hostname ":8080" = false /\
  get_location_async urlparse_model (Some "http://:8080/cb") "best" quiet_world
  = Done [ ("status", VStr "location_request_started");
           ("callback_route", VStr "http://:8080/cb");
           ("accuracy", VStr "best") ]
         (add_thread {| thread_callback_route := "http://:8080/cb";
                        thread_accuracy := "best" |} quiet_world) /\
  threads (add_thread {| thread_callback_route := "http://:8080/cb";
                         thread_accuracy := "best" |} quiet_world)
  <> threads quiet_world.
Proof.
  split; [reflexivity|]. split; [reflexivity|]. split; [reflexivity|].
  discriminate.
Qed.

(** ** Acquisition: what is stored, and under which time *)

(** The first test of the loop always succeeds after the clamps: the
    delegate is new and no time has passed, so one slice at least is run. *)
Lemma wait_loop_first_slice (timeout : Z) (p : Q) (w : World) :
  wait_loop wait_fuel (now w) (clamp_timeout timeout) (clamp_polling_interval p)
    delegate_init w
  = wait_loop (pred wait_fuel) (now w) (clamp_timeout timeout) (clamp_polling_interval p)
      (notify delegate_init w) (run_slice (clamp_polling_interval p) w).
Proof.
  change wait_fuel with (S (pred wait_fuel)) at 1. rewrite wait_loop_S.
  assert (Hw : waiting (now w) (clamp_timeout timeout) delegate_init w = true).
  { unfold waiting. simpl. apply Qltb_lt.
    pose proof (clamp_timeout_range timeout) as [Ht _].
    assert (Ht' : 1 <= inject_Z (clamp_timeout timeout)).
    { change 1 with (inject_Z 1). rewrite <- Zle_Qle. exact Ht. }
    lra. }
  rewrite Hw. reflexivity.
Qed.

(** A call that reaches the sensor returns a non-empty result, has stored
    it under the time read at the start of the call, and has left the
    duration as configured; the clock has moved on by one polling interval
    at least. *)
Lemma get_current_location_acquire_stores
    use_cache timeout accuracy polling_interval w :
  cache_fresh use_cache (_location_cache w) (now w) = false ->
  is_denied (authorization w) = false ->
  exists r w',
    get_current_location use_cache timeout accuracy polling_interval w = Done r w' /\
    truthy r = true /\
    data (_location_cache w') = r /\
    timestamp (_location_cache w') = now w /\
    cache_duration (_location_cache w') = cache_duration (_location_cache w) /\
    now w + clamp_polling_interval polling_interval <= now w'.
Proof.
  intros Hf Hd. rewrite get_current_location_acquire by assumption.
  set (ws := add_call StartUpdatingLocation (prelude accuracy w)).
  destruct (wait_loop_terminates timeout polling_interval delegate_init ws)
    as (d & wl & Hl).
  change (now ws) with (now w) in Hl. rewrite Hl.
  exists (outcome_of d), (finish (now w) d wl).
  split; [reflexivity|]. split; [apply outcome_of_truthy|].
  change (now w) with (now ws) in Hl. rewrite wait_loop_first_slice in Hl.
  pose proof (clamp_polling_interval_range polling_interval) as [Hp _].
  apply wait_loop_frame in Hl; [|lra].
  destruct Hl as (Hc & _ & _ & Hn & _).
  simpl in Hc, Hn. simpl. rewrite Hc. repeat split. exact Hn.
Qed.

(** After such a call, a cached read inside the validity window, counted
    from the time read at the start of the call, returns the same result. *)
Lemma get_current_location_then_cached
    use_cache timeout accuracy polling_interval w r w'
    timeout2 accuracy2 polling_interval2 w2 :
  cache_fresh use_cache (_location_cache w) (now w) = false ->
  is_denied (authorization w) = false ->
  get_current_location use_cache timeout accuracy polling_interval w = Done r w' ->
  _location_cache w2 = _location_cache w' ->
  now w2 - now w < inject_Z (cache_duration (_location_cache w)) ->
  get_current_location true timeout2 accuracy2 polling_interval2 w2 = Done r w2.
Proof.
  intros Hf Hd Hcall Hc Hwin.
  destruct (get_current_location_acquire_stores use_cache timeout accuracy
              polling_interval w Hf Hd) as (r0 & w0 & E & Ht & Hdata & Hts & Hdur & _).
  rewrite Hcall in E. injection E as <- <-.
  rewrite get_current_location_hit.
  - rewrite Hc, Hdata. reflexivity.
  - apply cache_fresh_iff. rewrite Hc, Hdata, Hts, Hdur. auto.
Qed.

(** C1. The authorization-denied path returns without storing. In
    [denied_world] a fix cached ten seconds ago is still in the cache; the
    call with [use_cache=false] returns the failure [{"error": "Unknown
    error"}] and leaves the cache as it was, so the following call with
    [use_cache=true] returns the old fix, not the failure just returned. *)
Theorem get_current_location_denied_not_stored :
  exists w1,
    get_current_location false 15 "best" (1 # 4) denied_world
    = Done (Some (error_result "Unknown error")) w1 /\
    _location_cache w1 = _location_cache denied_world /\
    get_current_location true 15 "best" (1 # 4) w1 = Done (Some example_fix) w1 /\
    Some example_fix <> Some (error_result "Unknown error").
Proof.
  exists (prelude "best" denied_world).
  split; [apply get_current_location_denied; reflexivity|].
  split; [reflexivity|].
  split; [apply get_current_location_hit; reflexivity|].
  discriminate.
Qed.

(** The body of the background task: an acquisition with
    [use_cache=False, timeout=10] and the default polling interval, then
    one post of its result to the callback route. *)
Lemma get_location_thread_posts (callback_route accuracy : string) (w : World) :
  exists r w',
    get_current_location false 10 accuracy (1 # 4) w = Done r w' /\
    get_location_thread callback_route accuracy w
    = Done tt (add_call (RequestsPost callback_route r) w').
Proof.
  destruct (get_current_location_returns false 10 accuracy (1 # 4) w) as (r & w' & E).
  exists r, w'. split; [exact E|].
  unfold get_location_thread, bind. rewrite E. reflexivity.
Qed.

(** C4, amended. For every call that runs an acquisition through the
    sensor, the timestamp stored with the outcome is the time read at the
    start of the call, before the acquisition; the store itself happens
    later, at least one polling interval after it. *)
Theorem stored_timestamp_is_call_time
    (use_cache : bool) (timeout : Z) (accuracy : string) (polling_interval : Q)
    (w : World) :
  cache_fresh use_cache (_location_cache w) (now w) = false ->
  is_denied (authorization w) = false ->
  exists r w',
    get_current_location use_cache timeout accuracy polling_interval w = Done r w' /\
    data (_location_cache w') = r /\
    timestamp (_location_cache w') = now w /\
    now w < now w'.
Proof.
  intros Hf Hd.
  destruct (get_current_location_acquire_stores use_cache timeout accuracy
              polling_interval w Hf Hd) as (r & w' & E & _ & Hdata & Hts & _ & Hn).
  exists r, w'. repeat split; try assumption.
  pose proof (clamp_polling_interval_range polling_interval) as [Hp _]. lra.
Qed.

(** ** Timeout without a notification *)

(** C3, amended. When the call reaches the sensor and no notification
    arrives before the clamped timeout has elapsed, [get_current_location]
    returns, once that timeout has elapsed, the failure whose description
    is the generic "Unknown error" of [_get_error_info(None)]. *)
Theorem timeout_returns_unknown_error
    (use_cache : bool) (timeout : Z) (accuracy : string) (polling_interval : Q)
    (w : World) :
  cache_fresh use_cache (_location_cache w) (now w) = false ->
  is_denied (authorization w) = false ->
  silent timeout polling_interval w = true ->
  exists w',
    get_current_location use_cache timeout accuracy polling_interval w
    = Done (Some (error_result "Unknown error")) w' /\
    inject_Z (clamp_timeout timeout) <= now w' - now w.
Proof.
  intros Hf Hd Hs. rewrite get_current_location_acquire by assumption.
  set (ws := add_call StartUpdatingLocation (prelude accuracy w)).
  destruct (wait_loop_terminates timeout polling_interval delegate_init ws)
    as (d & wl & Hl).
  change (now ws) with (now w) in Hl. rewrite Hl.
  assert (Hq : quiet_before (now w) (clamp_timeout timeout)
                 (clamp_polling_interval polling_interval) (now ws) (sensor ws) = true)
    by exact Hs.
  pose proof (wait_loop_quiet _ _ _ _ _ _ _ _ Hq Hl) as ->.
  apply wait_loop_exit in Hl. destruct Hl as [Hl|Hl]; [discriminate Hl|].
  eexists. split; [reflexivity|]. exact Hl.
Qed.

(** ** Authorization denied *)

(** C6, amended. Whenever the authorization state is "denied", the call
    returns at once: the clock has not moved, the sensor was never started
    and no run-loop slice was run. Unless the call is answered from a fresh
    cache entry, what it returns is the failure [{"error": "Unknown
    error"}]. *)
Theorem denied_fast_fail
    (use_cache : bool) (timeout : Z) (accuracy : string) (polling_interval : Q)
    (w : World) :
  authorization w = kCLAuthorizationStatusDenied ->
  exists r w',
    get_current_location use_cache timeout accuracy polling_interval w = Done r w' /\
    (cache_fresh use_cache (_location_cache w) (now w) = false ->
     r = Some (error_result "Unknown error")) /\
    now w' = now w /\
    sensor w' = sensor w /\
    exists made,
      calls w' = (made ++ calls w)%list /\
      ~ In StartUpdatingLocation made /\
      forall interval, ~ In (RunUntilDate interval) made.
Proof.
  intros Hauth.
  assert (Hd : is_denied (authorization w) = true) by (rewrite Hauth; reflexivity).
  destruct (cache_fresh use_cache (_location_cache w) (now w)) eqn:Hf.
  - rewrite get_current_location_hit by assumption.
    exists (data (_location_cache w)), w.
    split; [reflexivity|]. split; [discriminate|]. repeat split.
    exists []. repeat split; auto.
  - rewrite get_current_location_denied by assumption.
    exists (Some (error_result "Unknown error")), (prelude accuracy w).
    split; [reflexivity|]. split; [reflexivity|]. repeat split.
    exists [ AuthorizationStatus; RequestWhenInUseAuthorization;
             SetDesiredAccuracy (accuracy_map_get (lower accuracy));
             SetDistanceFilterNone; SetDelegate; DelegateInit; ManagerInit ].
    split; [reflexivity|].
    split; [|intros interval]; simpl; intuition discriminate.
Qed.

(** * Further properties of the module *)

(** ** The delegate *)

Lemma deliver_updated (ev : SensorEvent) (d : LocationDelegate) :
  is_updated (deliver d ev) = true.
Proof. destruct ev; reflexivity. Qed.

Lemma fold_deliver_updated (evs : list SensorEvent) (d : LocationDelegate) :
  evs <> [] -> is_updated (fold_left deliver evs d) = true.
Proof.
  destruct evs as [|ev evs] using rev_ind; [congruence|].
  intros _. rewrite fold_left_app. simpl. apply deliver_updated.
Qed.

(** Once an error has been delivered, the delegate keeps an error: no
    callback clears [location_error]. *)
Lemma fold_deliver_error (evs : list SensorEvent) (d : LocationDelegate) (e : CLError) :
  In (DidFailWithError e) evs ->
  exists e', In (DidFailWithError e') evs /\
             location_error (fold_left deliver evs d) = Some e'.
Proof.
  induction evs as [|ev evs IH] using rev_ind; intros Hin; [destruct Hin|].
  rewrite fold_left_app. simpl. destruct ev as [l ls|e0].
  - apply in_app_or in Hin. destruct Hin as [Hin|[Hin|[]]]; [|discriminate Hin].
    destruct (IH Hin) as (e' & Hin' & He'). exists e'. split.
    + apply in_or_app. now left.
    + exact He'.
  - exists e0. split; [|reflexivity]. apply in_or_app. right. now left.
Qed.

(** ** The wait loop: clock, trace and first notification *)

Lemma inject_Z_of_nat_S_mul (n : nat) (p : Q) :
  inject_Z (Z.of_nat (S n)) * p == inject_Z (Z.of_nat n) * p + p.
Proof. rewrite inject_Z_of_nat_S. ring. Qed.

Lemma inject_Z_of_nat_nonneg (n : nat) : 0 <= inject_Z (Z.of_nat n).
Proof. change 0 with (inject_Z 0). rewrite <- Zle_Qle. lia. Qed.

Lemma wait_loop_updated fuel start timeout p d w :
  is_updated d = true -> wait_loop fuel start timeout p d w = Done d w.
Proof.
  intros H. destruct fuel; [rewrite wait_loop_O | rewrite wait_loop_S];
    unfold waiting; rewrite H; reflexivity.
Qed.

(** The loop runs some number [n] of slices: they are the calls it adds,
    and the clock has moved by [n] polling intervals. *)
Lemma wait_loop_trace (start : Q) (timeout : Z) (p : Q) :
  forall (fuel : nat) (d d' : LocationDelegate) (w w' : World),
    wait_loop fuel start timeout p d w = Done d' w' ->
    exists n,
      calls w' = (repeat (RunUntilDate p) n ++ calls w)%list /\
      now w' == now w + inject_Z (Z.of_nat n) * p.
Proof.
  induction fuel as [|fuel IH]; intros d d' w w' H.
  - rewrite wait_loop_O in H. destruct (waiting start timeout d w); [discriminate|].
    injection H as <- <-. exists 0%nat. split; [reflexivity|].
    change (inject_Z (Z.of_nat 0)) with 0. ring.
  - rewrite wait_loop_S in H. destruct (waiting start timeout d w).
    + apply IH in H. destruct H as (n & Hc & Hn). exists (S n). split.
      * rewrite Hc. simpl calls.
        change (RunUntilDate p :: calls w) with ([RunUntilDate p] ++ calls w)%list.
        rewrite app_assoc. f_equal.
        change [RunUntilDate p] with (repeat (RunUntilDate p) 1).
        rewrite <- repeat_app. f_equal. lia.
      * rewrite Hn. change (now (run_slice p w)) with (now w + p).
        rewrite inject_Z_of_nat_S_mul. ring.
    + injection H as <- <-. exists 0%nat. split; [reflexivity|].
      change (inject_Z (Z.of_nat 0)) with 0. ring.
Qed.


(** When the sensor is silent for [n] slices and then notifies, and those
    [n] slices start before the timeout, the loop exits after slice
    [n + 1] with the delegate as that slice's notifications leave it. *)
Lemma wait_loop_first_notification (start : Q) (timeout : Z) (p : Q) (Hp : 0 <= p) :
  forall (n fuel : nat) (d : LocationDelegate) (w : World)
         (evs : list SensorEvent) (rest : list (list SensorEvent)),
    (n < fuel)%nat ->
    is_updated d = false ->
    sensor w = (repeat [] n ++ evs :: rest)%list ->
    evs <> [] ->
    (now w - start) + inject_Z (Z.of_nat n) * p < inject_Z timeout ->
    exists w',
      wait_loop fuel start timeout p d w = Done (fold_left deliver evs d) w' /\
      sensor w' = rest /\
      now w' == now w + inject_Z (Z.of_nat (S n)) * p /\
      _location_cache w' = _location_cache w.
Proof.
  induction n as [|n IH]; intros fuel d w evs rest Hfuel Hd Hs Hevs Ht.
  - destruct fuel as [|fuel]; [lia|]. rewrite wait_loop_S.
    assert (Hw : waiting start timeout d w = true).
    { unfold waiting. rewrite Hd. simpl. apply Qltb_lt.
      change (inject_Z (Z.of_nat 0)) with 0 in Ht. lra. }
    rewrite Hw. unfold notify. rewrite Hs. simpl hd.
    rewrite wait_loop_updated by (now apply fold_deliver_updated).
    eexists. split; [reflexivity|]. simpl. rewrite Hs. simpl.
    repeat split. change (inject_Z (Z.of_nat 1)) with 1. ring.
  - destruct fuel as [|fuel]; [lia|]. rewrite wait_loop_S.
    pose proof (inject_Z_of_nat_nonneg (S n)) as Hn0.
    pose proof (inject_Z_of_nat_S_mul n p) as Hmul.
    assert (Hnp : 0 <= inject_Z (Z.of_nat n) * p)
      by (apply Qmult_le_0_compat; [apply inject_Z_of_nat_nonneg | exact Hp]).
    rewrite Hmul in Ht.
    assert (Hw : waiting start timeout d w = true).
    { unfold waiting. rewrite Hd. simpl. apply Qltb_lt.
      set (x := inject_Z (Z.of_nat n) * p) in *. lra. }
    rewrite Hw. unfold notify. rewrite Hs. simpl hd. simpl fold_left.
    destruct (IH fuel d (run_slice p w) evs rest) as (w' & E & Hs' & Hn' & Hc').
    + lia.
    + exact Hd.
    + simpl. rewrite Hs. reflexivity.
    + exact Hevs.
    + change (now (run_slice p w)) with (now w + p).
      set (x := inject_Z (Z.of_nat n) * p) in *. lra.
    + exists w'. split; [exact E|]. split; [exact Hs'|]. split; [|exact Hc'].
      rewrite Hn'. change (now (run_slice p w)) with (now w + p).
      rewrite (inject_Z_of_nat_S_mul (S n) p), (inject_Z_of_nat_S_mul n p). ring.
Qed.

(** Slices that start before the clamped timeout are fewer than [wait_fuel]. *)
Lemma slices_lt_wait_fuel (n : nat) (timeout : Z) (p : Q) :
  inject_Z (Z.of_nat n) * clamp_polling_interval p < inject_Z (clamp_timeout timeout) ->
  (n < wait_fuel)%nat.
Proof.
  intros H.
  pose proof (clamp_timeout_range timeout) as [_ Ht].
  pose proof (clamp_polling_interval_range p) as [Hp _].
  assert (Ht' : inject_Z (clamp_timeout timeout) <= 30).
  { change 30 with (inject_Z 30). rewrite <- Zle_Qle. exact Ht. }
  pose proof (inject_Z_of_nat_nonneg n) as Hn.
  assert (Hlow : inject_Z (Z.of_nat n) * (1 # 10)
                 <= inject_Z (Z.of_nat n) * clamp_polling_interval p).
  { rewrite (Qmult_comm _ (1 # 10)), (Qmult_comm _ (clamp_polling_interval p)).
    apply Qmult_le_compat_r; assumption. }
  assert (Hlt : inject_Z (Z.of_nat n) < inject_Z 300).
  { change (inject_Z 300) with 300. 
    set (x := inject_Z (Z.of_nat n) * clamp_polling_interval p) in *. lra. }
  rewrite <- Zlt_Qlt in Hlt. unfold wait_fuel. lia.
Qed.

(** The same for a whole call that reaches the sensor. *)
Lemma get_current_location_notified
    use_cache timeout accuracy polling_interval w n evs rest :
  cache_fresh use_cache (_location_cache w) (now w) = false ->
  is_denied (authorization w) = false ->
  sensor w = (repeat [] n ++ evs :: rest)%list ->
  evs <> [] ->
  inject_Z (Z.of_nat n) * clamp_polling_interval polling_interval
  < inject_Z (clamp_timeout timeout) ->
  exists w',
    get_current_location use_cache timeout accuracy polling_interval w
    = Done (outcome_of (fold_left deliver evs delegate_init)) w' /\
    data (_location_cache w') = outcome_of (fold_left deliver evs delegate_init) /\
    sensor w' = rest /\
    now w' == now w + inject_Z (Z.of_nat (S n)) * clamp_polling_interval polling_interval.
Proof.
  intros Hf Hd Hs Hevs Ht.
  rewrite get_current_location_acquire by assumption.
  set (ws := add_call StartUpdatingLocation (prelude accuracy w)).
  pose proof (clamp_polling_interval_range polling_interval) as [Hp _].
  destruct (wait_loop_first_notification (now w) (clamp_timeout timeout)
              (clamp_polling_interval polling_interval) ltac:(lra)
              n wait_fuel delegate_init ws evs rest) as (wl & E & Hs' & Hn' & _).
  - eapply slices_lt_wait_fuel; eassumption.
  - reflexivity.
  - exact Hs.
  - exact Hevs.
  - change (now ws) with (now w).
    set (x := inject_Z (Z.of_nat n) * clamp_polling_interval polling_interval) in *. lra.
  - rewrite E. eexists. split; [reflexivity|]. simpl.
    split; [reflexivity|]. split; [exact Hs' | exact Hn'].
Qed.

(** ** How long a call takes, and what it asks of the platform *)


(** X2. A call that reaches the sensor makes these platform calls, in this
    order: the seven of the set-up, [startUpdatingLocation], [n >= 1]
    run-loop slices of the clamped polling interval, and
    [stopUpdatingLocation] last; the clock has then moved by exactly those
    [n] slices. *)
Theorem acquisition_trace
    (use_cache : bool) (timeout : Z) (accuracy : string) (polling_interval : Q)
    (w : World) :
  cache_fresh use_cache (_location_cache w) (now w) = false ->
  is_denied (authorization w) = false ->
  exists r w' n,
    get_current_location use_cache timeout accuracy polling_interval w = Done r w' /\
    (1 <= n)%nat /\
    calls w'
    = (StopUpdatingLocation
       :: repeat (RunUntilDate (clamp_polling_interval polling_interval)) n
       ++ [ StartUpdatingLocation; AuthorizationStatus; RequestWhenInUseAuthorization;
            SetDesiredAccuracy (accuracy_map_get (lower accuracy));
            SetDistanceFilterNone; SetDelegate; DelegateInit; ManagerInit ]
       ++ calls w)%list /\
    now w' == now w + inject_Z (Z.of_nat n) * clamp_polling_interval polling_interval.
Proof.
  intros Hf Hd. rewrite get_current_location_acquire by assumption.
  set (ws := add_call StartUpdatingLocation (prelude accuracy w)).
  set (p := clamp_polling_interval polling_interval).
  destruct (wait_loop_terminates timeout polling_interval delegate_init ws)
    as (d & wl & Hl).
  change (now ws) with (now w) in Hl. fold p in Hl. rewrite Hl.
  change (now w) with (now ws) in Hl. unfold p in Hl.
  rewrite wait_loop_first_slice in Hl. fold p in Hl.
  apply wait_loop_trace in Hl. destruct Hl as (n & Hc & Hn).
  exists (outcome_of d), (finish (now ws) d wl), (S n).
  split; [reflexivity|]. split; [lia|]. split.
  - simpl calls at 1. rewrite Hc. simpl calls.
    f_equal.
    change (repeat (RunUntilDate p) (S n))
      with (RunUntilDate p :: repeat (RunUntilDate p) n).
    rewrite repeat_cons, <- app_assoc. reflexivity.
  - change (now (finish (now ws) d wl)) with (now wl). rewrite Hn.
    change (now (run_slice p ws)) with (now w + p).
    rewrite inject_Z_of_nat_S_mul. ring.
Qed.

(** ** Notifications *)


(** X4. An error notification wins over a fix: when the slice of the first
    notification contains an error, whatever else it contains, the call
    returns the failure described by [_get_error_info] for an error of
    that slice (the last one), and that failure is cached. *)
Theorem error_notification_wins
    (use_cache : bool) (timeout : Z) (accuracy : string) (polling_interval : Q)
    (w : World) (n : nat) (evs : list SensorEvent) (rest : list (list SensorEvent))
    (e : CLError) :
  cache_fresh use_cache (_location_cache w) (now w) = false ->
  is_denied (authorization w) = false ->
  sensor w = (repeat [] n ++ evs :: rest)%list ->
  In (DidFailWithError e) evs ->
  inject_Z (Z.of_nat n) * clamp_polling_interval polling_interval
  < inject_Z (clamp_timeout timeout) ->
  exists e' w',
    In (DidFailWithError e') evs /\
    get_current_location use_cache timeout accuracy polling_interval w
    = Done (Some (error_result (description (_get_error_info (Some e'))))) w' /\
    data (_location_cache w')
    = Some (error_result (description (_get_error_info (Some e')))).
Proof.
  intros Hf Hd Hs Hin Ht.
  assert (Hevs : evs <> []) by (intros ->; destruct Hin).
  destruct (get_current_location_notified use_cache timeout accuracy polling_interval
              w n evs rest Hf Hd Hs Hevs Ht) as (w' & E & Hdata & _ & _).
  destruct (fold_deliver_error evs delegate_init e Hin) as (e' & Hin' & He').
  exists e', w'. split; [exact Hin'|].
  unfold outcome_of in E, Hdata. rewrite He' in E, Hdata.
  split; [exact E | exact Hdata].
Qed.

(** X5. When the first notification is one array of locations, the call
    returns the formatted last location of the array, the most recent one,
    and caches it under the time read at the start of the call. *)
Theorem most_recent_location_returned
    (use_cache : bool) (timeout : Z) (accuracy : string) (polling_interval : Q)
    (w : World) (n : nat) (l : CLLocation) (ls : list CLLocation)
    (rest : list (list SensorEvent)) :
  cache_fresh use_cache (_location_cache w) (now w) = false ->
  is_denied (authorization w) = false ->
  sensor w = (repeat [] n ++ [DidUpdateLocations l ls] :: rest)%list ->
  inject_Z (Z.of_nat n) * clamp_polling_interval polling_interval
  < inject_Z (clamp_timeout timeout) ->
  exists w',
    get_current_location use_cache timeout accuracy polling_interval w
    = Done (_format_location_data (Some (last ls l))) w' /\
    data (_location_cache w') = _format_location_data (Some (last ls l)).
Proof.
  intros Hf Hd Hs Ht.
  destruct (get_current_location_notified use_cache timeout accuracy polling_interval
              w n [DidUpdateLocations l ls] rest Hf Hd Hs ltac:(discriminate) Ht)
    as (w' & E & Hdata & _ & _).
  exists w'. split; [exact E | exact Hdata].
Qed.

(** ** Results and their formatting *)

(** X6. Every call returns a non-empty dict, never [None] and never an
    empty dict, whichever of its return statements it leaves by. *)
Theorem get_current_location_nonempty
    (use_cache : bool) (timeout : Z) (accuracy : string) (polling_interval : Q)
    (w : World) :
  exists d w',
    get_current_location use_cache timeout accuracy polling_interval w
    = Done (Some d) w' /\
    d <> [].
Proof.
  assert (Hshape : forall o, truthy o = true -> exists d, o = Some d /\ d <> []).
  { intros [[|kv d]|] Ho; try discriminate Ho. eexists. split; [reflexivity|discriminate]. }
  destruct (cache_fresh use_cache (_location_cache w) (now w)) eqn:Hf.
  - rewrite get_current_location_hit by assumption.
    apply cache_fresh_iff in Hf. destruct Hf as (_ & Ht & _).
    destruct (Hshape _ Ht) as (d & -> & Hd). eauto.
  - destruct (is_denied (authorization w)) eqn:Hd.
    + rewrite get_current_location_denied by assumption.
      eexists. eexists. split; [reflexivity | discriminate].
    + destruct (get_current_location_acquire_stores use_cache timeout accuracy
                  polling_interval w Hf Hd) as (r & w' & E & Ht & _).
      destruct (Hshape _ Ht) as (d & -> & Hne). eauto.
Qed.

(** X7. [_format_location_data] gives [None] for no location; for a
    location it gives either the dict of all eight readings, in the order
    latitude, longitude, accuracy, altitude, altitude_accuracy, course,
    speed, timestamp, when every accessor succeeds, or a dict with the
    single key "error" whose text carries the message of an accessor that
    raised; never a partial dict. *)
Theorem format_location_data_shape (l : CLLocation) :
  _format_location_data None = None /\
  ((exists lat lon acc alt vacc crs spd ts,
      coordinate l = Ok (lat, lon) /\ horizontalAccuracy l = Ok acc /\
      altitude l = Ok alt /\ verticalAccuracy l = Ok vacc /\
      course l = Ok crs /\ speed l = Ok spd /\ loc_timestamp l = Ok ts /\
      _format_location_data (Some l)
      = Some [ ("latitude", VFloat lat); ("longitude", VFloat lon);
               ("accuracy", VFloat acc); ("altitude", VFloat alt);
               ("altitude_accuracy", VFloat vacc); ("course", VFloat crs);
               ("speed", VFloat spd); ("timestamp", VDate ts) ])
   \/
   (exists msg,
      (coordinate l = Raises msg \/ horizontalAccuracy l = Raises msg \/
       altitude l = Raises msg \/ verticalAccuracy l = Raises msg \/
       course l = Raises msg \/ speed l = Raises msg \/ loc_timestamp l = Raises msg) /\
      _format_location_data (Some l)
      = Some (error_result ("Error formatting location data: " ++ msg)))).
Proof.
  split; [reflexivity|]. unfold _format_location_data.
  destruct (coordinate l) as [[lat lon]|m] eqn:E1; [|right; exists m; simpl; tauto].
  destruct (horizontalAccuracy l) as [acc|m] eqn:E2; [|right; exists m; simpl; tauto].
  destruct (altitude l) as [alt|m] eqn:E3; [|right; exists m; simpl; tauto].
  destruct (verticalAccuracy l) as [vacc|m] eqn:E4; [|right; exists m; simpl; tauto].
  destruct (course l) as [crs|m] eqn:E5; [|right; exists m; simpl; tauto].
  destruct (speed l) as [spd|m] eqn:E6; [|right; exists m; simpl; tauto].
  destruct (loc_timestamp l) as [ts|m] eqn:E7; [|right; exists m; simpl; tauto].
  left. exists lat, lon, acc, alt, vacc, crs, spd, ts. simpl. repeat split.
Qed.

(** X8. The description of [_get_error_info] tells the cases apart: it is
    "Unknown error" exactly for no error object, "Unable to determine
    location" exactly for code [kCLErrorLocationUnknown], the
    access-denied text exactly for code [kCLErrorDenied], and for an
    error object the code is passed through unchanged. *)
Theorem get_error_info_cases (error : option CLError) :
  (description (_get_error_info error) = "Unknown error" <-> error = None) /\
  (description (_get_error_info error) = "Unable to determine location"
   <-> exists e, error = Some e /\ code e = kCLErrorLocationUnknown) /\
  (description (_get_error_info error)
   = "Location services access denied. Please enable in System Preferences."
   <-> exists e, error = Some e /\ code e = kCLErrorDenied) /\
  (forall e, error = Some e -> info_code (_get_error_info error) = code e).
Proof.
  assert (Hne : kCLErrorLocationUnknown <> kCLErrorDenied) by discriminate.
  destruct error as [[c]|]; simpl.
  - destruct (Z.eqb_spec c kCLErrorLocationUnknown) as [E0|E0];
      [|destruct (Z.eqb_spec c kCLErrorDenied) as [E1|E1]];
      (split; [split; discriminate|]);
      (split; [split; [try discriminate; intros _; exists {| code := c |}; auto
                      | intros (e & He & Hc); injection He as <-; simpl in Hc;
                        try reflexivity; congruence]|]);
      (split; [split; [try discriminate; intros _; exists {| code := c |}; auto
                      | intros (e & He & Hc); injection He as <-; simpl in Hc;
                        try reflexivity; congruence]|]);
      intros e He; now injection He as <-.
  - split; [split; reflexivity|].
    split; [split; [discriminate | intros (e & He & _); discriminate]|].
    split; [split; [discriminate | intros (e & He & _); discriminate]|].
    intros e He. discriminate.
Qed.

(** X9. The accuracy argument matters only through the constant it is
    mapped to: two spellings with the same lower-case form, as [str.lower]
    gives it, make the same call, and a name whose lower-case form is none
    of the six known ones makes the call made with "best" (which
    [str.lower] leaves as it is). *)
Theorem accuracy_spelling
    (use_cache : bool) (timeout : Z) (polling_interval : Q) (w : World)
    (a b : string) :
  (lower a = lower b ->
   get_current_location use_cache timeout a polling_interval w
   = get_current_location use_cache timeout b polling_interval w) /\
  (~ In (lower a) ["best"; "navigation"; "ten_meters"; "hundred_meters";
                   "kilometer"; "three_kilometers"] ->
   lower "best" = "best" ->
   get_current_location use_cache timeout a polling_interval w
   = get_current_location use_cache timeout "best" polling_interval w).
Proof.
  split.
  - intros H. unfold get_current_location. rewrite H. reflexivity.
  - intros H Hbest.
    assert (E : accuracy_map_get (lower a) = accuracy_map_get (lower "best")).
    { rewrite Hbest. unfold accuracy_map_get at 1.
      repeat match goal with
             | |- context [String.eqb (lower a) ?k] =>
                 destruct (String.eqb_spec (lower a) k) as [Hk|_];
                 [exfalso; apply H; rewrite Hk; simpl; tauto|]
             end.
      reflexivity. }
    unfold get_current_location. rewrite E. reflexivity.
Qed.

(** ** The cache across the tools *)

(** The cache the module starts with is well-formed at any clock that is
    not negative. *)
Lemma cache_inv_initial (w : World) :
  _location_cache w = initial_cache -> 0 <= now w -> cache_inv w.
Proof.
  intros Hc Hn. unfold cache_inv. rewrite Hc. simpl.
  split; [lia|]. split; [now left|]. split; lra.
Qed.

(** X10. Every tool keeps the cache well-formed: if the duration is within
    [5, 300], the data is [None] or a non-empty dict and the timestamp
    lies between 0 and the clock, the same holds after
    [get_current_location], [clear_location_cache], [set_cache_duration],
    [get_cache_status], [get_location_async] and the background task,
    whatever their arguments. *)
Theorem cache_inv_preserved (w : World) :
  cache_inv w ->
  (forall use_cache timeout accuracy polling_interval,
     exists r w',
       get_current_location use_cache timeout accuracy polling_interval w = Done r w' /\
       cache_inv w') /\
  (exists r w', clear_location_cache w = Done r w' /\ cache_inv w') /\
  (forall seconds,
     exists r w', set_cache_duration seconds w = Done r w' /\ cache_inv w') /\
  (exists st w', get_cache_status w = Done st w' /\ cache_inv w') /\
  (forall urlparse callback_route accuracy,
     exists r w',
       get_location_async urlparse callback_route accuracy w = Done r w' /\
       cache_inv w') /\
  (forall callback_route accuracy,
     exists w',
       get_location_thread callback_route accuracy w = Done tt w' /\ cache_inv w').
Proof.
  intros (Hdur & Hdata & Hts0 & Hts).
  assert (Hgcl : forall use_cache timeout accuracy polling_interval,
             exists r w',
               get_current_location use_cache timeout accuracy polling_interval w
               = Done r w' /\ cache_inv w').
  { intros use_cache timeout accuracy polling_interval.
    destruct (cache_fresh use_cache (_location_cache w) (now w)) eqn:Hf.
    - rewrite get_current_location_hit by assumption.
      eexists. eexists. split; [reflexivity|]. repeat split; assumption || apply Hdur.
    - destruct (is_denied (authorization w)) eqn:Hd.
      + rewrite get_current_location_denied by assumption.
        eexists. eexists. split; [reflexivity|]. repeat split; assumption || apply Hdur.
      + destruct (get_current_location_acquire_stores use_cache timeout accuracy
                    polling_interval w Hf Hd)
          as (r & w' & E & Ht & Hd' & Hts' & Hdur' & Hn).
        exists r, w'. split; [exact E|].
        pose proof (clamp_polling_interval_range polling_interval) as [Hp _].
        unfold cache_inv. rewrite Hdur', Hd', Hts'.
        split; [exact Hdur|]. split; [now right|]. split; lra. }
  split; [exact Hgcl|].
  split.
  { eexists. eexists. split; [reflexivity|]. unfold cache_inv. simpl.
    split; [exact Hdur|]. split; [now left|]. split; lra. }
  split.
  { intros seconds. eexists. eexists. split; [reflexivity|]. unfold cache_inv. simpl.
    split; [lia|]. split; [exact Hdata|]. split; assumption. }
  split.
  { eexists. eexists. split; [reflexivity|]. repeat split; assumption || apply Hdur. }
  split.
  { intros urlparse callback_route accuracy. unfold get_location_async.
    destruct callback_route as [route|];
      [|eexists; eexists; split; [reflexivity|];
        repeat split; assumption || apply Hdur].
    destruct (str_truthy route); simpl;
      [|eexists; eexists; split; [reflexivity|];
        repeat split; assumption || apply Hdur].
    destruct (urlparse route) as [parsed|];
      [|eexists; eexists; split; [reflexivity|];
        repeat split; assumption || apply Hdur].
    destruct (str_truthy (scheme parsed) && str_truthy (netloc parsed)); simpl;
      eexists; eexists; (split; [reflexivity|]);
      repeat split; assumption || apply Hdur. }
  intros callback_route accuracy.
  destruct (Hgcl false 10%Z accuracy (1 # 4)) as (r & w' & E & Hinv).
  exists (add_call (RequestsPost callback_route r) w').
  split; [|exact Hinv].
  unfold get_location_thread, bind. rewrite E. reflexivity.
Qed.

(** X11. [clear_location_cache] is idempotent, and after it no cached read
    is answered from the cache, at whatever time and with whatever
    parameters it is made: the call goes to the platform. *)
Theorem clear_forces_acquisition (w : World) :
  exists w1,
    clear_location_cache w = Done [("status", VStr "cache_cleared")] w1 /\
    clear_location_cache w1 = Done [("status", VStr "cache_cleared")] w1 /\
    forall w2 timeout accuracy polling_interval,
      _location_cache w2 = _location_cache w1 ->
      cache_fresh true (_location_cache w2) (now w2) = false /\
      exists r w',
        get_current_location true timeout accuracy polling_interval w2 = Done r w' /\
        (List.length (calls w2) < List.length (calls w'))%nat.
Proof.
  eexists. split; [reflexivity|]. split; [reflexivity|].
  intros w2 timeout accuracy polling_interval Hc.
  assert (Hf : cache_fresh true (_location_cache w2) (now w2) = false)
    by (rewrite Hc; reflexivity).
  split; [exact Hf|].
  destruct (get_current_location_returns true timeout accuracy polling_interval w2)
    as (r & w' & E).
  exists r, w'. split; [exact E|].
  eapply get_current_location_miss_calls; eassumption.
Qed.


(** X13. [get_cache_status] and the cache read agree through
    [seconds_until_expiration]: for a well-formed cache the count is never
    negative, a cached read is answered from the cache exactly when the
    count is positive, a reported expiry implies that the entry is not
    fresh, and for a fresh entry the seconds since the update and the
    seconds until expiration add up to the duration. *)
Theorem status_agrees_with_cache_read (w : World) :
  data (_location_cache w) = None \/ truthy (data (_location_cache w)) = true ->
  exists st,
    get_cache_status w = Done st w /\
    0 <= seconds_until_expiration st /\
    (cache_fresh true (_location_cache w) (now w) = true
     <-> 0 < seconds_until_expiration st) /\
    (is_expired st = true -> cache_fresh true (_location_cache w) (now w) = false) /\
    (cache_fresh true (_location_cache w) (now w) = true ->
     seconds_since_update st + seconds_until_expiration st
     == inject_Z (status_cache_duration st)).
Proof.
  intros Hshape. eexists. split; [reflexivity|]. cbn.
  rewrite cache_fresh_iff.
  set (c := _location_cache w) in *.
  set (x := inject_Z (cache_duration c) - (now w - timestamp c)).
  assert (Hmax : x <= 0 /\ Qmax 0 x = 0 \/ 0 < x /\ Qmax 0 x = x).
  { unfold Qmax, GenericMinMax.gmax. destruct (0 ?= x) eqn:E.
    - apply Qeq_alt in E. left. split; [lra | reflexivity].
    - apply Qlt_alt in E. right. split; [exact E | reflexivity].
    - apply Qgt_alt in E. left. split; [lra | reflexivity]. }
  destruct (data c) as [d|] eqn:Hd.
  - destruct Hshape as [Hs|Hs]; [discriminate Hs|].
    destruct Hmax as [[Hx ->]|[Hx ->]].
    + split; [lra|]. split.
      * split; [intros (_ & _ & Hlt); subst x; lra | intros H; lra].
      * split.
        -- intros _. apply not_true_is_false. rewrite cache_fresh_iff.
           intros (_ & _ & Hlt). subst x. lra.
        -- intros (_ & _ & Hlt). subst x. lra.
    + split; [lra|]. split.
      * split; [intros _; exact Hx | intros _; repeat split; [exact Hs | subst x; lra]].
      * split.
        -- intros He. apply Qltb_lt in He. subst x. lra.
        -- intros _. subst x. ring.
  - split; [lra|]. split.
    + split; [intros (_ & Ht & _); discriminate Ht | intros H; lra].
    + split; [intros _; unfold cache_fresh; rewrite Hd; reflexivity
             | intros (_ & Ht & _); discriminate Ht].
Qed.

Lemma status_agrees_with_cache_read_witness :
  exists st,
    get_cache_status denied_world = Done st denied_world /\
    0 < seconds_until_expiration st /\
    seconds_since_update st + seconds_until_expiration st == 30.
Proof.
  destruct (status_agrees_with_cache_read denied_world (or_intror eq_refl))
    as (st & E & _ & Hpos & _ & Hsum).
  exists st. split; [exact E|]. split.
  - apply Hpos. reflexivity.
  - rewrite (Hsum eq_refl). injection E as <-. reflexivity.
Defined.

(** X14. Because the entry is stamped with the start of the call, a cached
    read made right after a call that reached the sensor returns the same
    result without any platform call only if that call took less than the
    cache duration; if it took that long or longer, the entry is already
    stale when the call returns. *)
Theorem immediate_cached_read
    (use_cache : bool) (timeout : Z) (accuracy : string) (polling_interval : Q)
    (w : World) :
  cache_fresh use_cache (_location_cache w) (now w) = false ->
  is_denied (authorization w) = false ->
  exists r w',
    get_current_location use_cache timeout accuracy polling_interval w = Done r w' /\
    (now w' - now w < inject_Z (cache_duration (_location_cache w)) ->
     forall timeout2 accuracy2 polling_interval2,
       get_current_location true timeout2 accuracy2 polling_interval2 w' = Done r w') /\
    (inject_Z (cache_duration (_location_cache w)) <= now w' - now w ->
     cache_fresh true (_location_cache w') (now w') = false).
Proof.
  intros Hf Hd.
  destruct (get_current_location_acquire_stores use_cache timeout accuracy
              polling_interval w Hf Hd) as (r & w' & E & Ht & Hdata & Hts & Hdur & _).
  exists r, w'. split; [exact E|]. split.
  - intros Hlt timeout2 accuracy2 polling_interval2.
    rewrite get_current_location_hit.
    + now rewrite Hdata.
    + apply cache_fresh_iff. rewrite Hdata, Hts, Hdur. auto.
  - intros Hge. apply not_true_is_false. rewrite cache_fresh_iff.
    rewrite Hts, Hdur. intros (_ & _ & Hlt). lra.
Qed.

(** ** The asynchronous request *)

(** X15. [get_location_async] never acquires anything itself: for every
    [urlparse] and every argument it returns with the clock, the cache,
    the sensor and the record of platform calls as they were, and it has
    either started no thread and returned an error dict, or started exactly
    one thread, for the route and accuracy it was given, and returned the
    "location_request_started" dict that echoes them. *)
Theorem get_location_async_effects
    (urlparse : string -> option ParseResult)
    (callback_route : option string) (accuracy : string) (w : World) :
  exists r w',
    get_location_async urlparse callback_route accuracy w = Done r w' /\
    now w' = now w /\
    _location_cache w' = _location_cache w /\
    sensor w' = sensor w /\
    calls w' = calls w /\
    ((threads w' = threads w /\ exists msg, r = error_result msg)
     \/
     (exists route,
        callback_route = Some route /\ route <> "" /\
        threads w' = {| thread_callback_route := route; thread_accuracy := accuracy |}
                     :: threads w /\
        r = [ ("status", VStr "location_request_started");
              ("callback_route", VStr route);
              ("accuracy", VStr accuracy) ])).
Proof.
  unfold get_location_async.
  destruct callback_route as [route|];
    [|eexists; eexists; split; [reflexivity|]; repeat split; left; eauto].
  destruct (str_truthy route) eqn:Hr; simpl;
    [|eexists; eexists; split; [reflexivity|]; repeat split; left; eauto].
  destruct (urlparse route) as [parsed|];
    [|eexists; eexists; split; [reflexivity|]; repeat split; left; eauto].
  destruct (str_truthy (scheme parsed) && str_truthy (netloc parsed)); simpl;
    [|eexists; eexists; split; [reflexivity|]; repeat split; left; eauto].
  eexists. eexists. split; [reflexivity|]. repeat split. right.
  exists route. repeat split.
  intros ->. discriminate Hr.
Qed.

(** X16. The background task does not read the cache: it goes to the
    platform even when a fresh entry is cached, posts exactly once, as its
    last action, and what it posts to the callback route is the non-empty
    result of its acquisition, which, unless authorization is denied, is
    also what the cache then holds. *)
Theorem get_location_thread_effects (callback_route accuracy : string) (w : World) :
  exists d w1 w',
    get_current_location false 10 accuracy (1 # 4) w = Done (Some d) w1 /\
    d <> [] /\
    (List.length (calls w) < List.length (calls w1))%nat /\
    (forall url json, ~ In (RequestsPost url json) (calls w) ->
                      ~ In (RequestsPost url json) (calls w1)) /\
    get_location_thread callback_route accuracy w = Done tt w' /\
    calls w' = RequestsPost callback_route (Some d) :: calls w1 /\
    _location_cache w' = _location_cache w1 /\
    (is_denied (authorization w) = false -> data (_location_cache w') = Some d).
Proof.
  assert (Hf : cache_fresh false (_location_cache w) (now w) = false) by reflexivity.
  destruct (is_denied (authorization w)) eqn:Hd.
  - pose proof (get_current_location_denied false 10 accuracy (1 # 4) w Hf Hd) as E.
    eexists. eexists. eexists. split; [exact E|]. split; [discriminate|].
    split; [simpl; lia|]. split.
    { intros url json Hnot. simpl. intuition discriminate. }
    split; [unfold get_location_thread, bind; rewrite E; reflexivity|].
    split; [reflexivity|]. split; [reflexivity|]. discriminate.
  - destruct (get_current_location_acquire_stores false 10 accuracy (1 # 4) w Hf Hd)
      as (r & w1 & E & Ht & Hdata & _).
    destruct r as [[|kv d]|]; try discriminate Ht.
    exists (kv :: d), w1, (add_call (RequestsPost callback_route (Some (kv :: d))) w1).
    split; [exact E|]. split; [discriminate|].
    split; [eapply get_current_location_miss_calls; eassumption|].
    split.
    { intros url json Hnot.
      pose proof E as E'. rewrite get_current_location_acquire in E' by assumption.
      destruct (wait_loop _ _ _ _ _ _) as [dl wl|] eqn:Hl; [|discriminate E'].
      injection E' as _ <-.
      pose proof (clamp_polling_interval_range (1 # 4)) as [Hp _].
      apply wait_loop_frame in Hl; [|lra].
      destruct Hl as (_ & _ & _ & _ & n & Hc).
      simpl. rewrite Hc. intros [H|H]; [discriminate H|].
      apply in_app_or in H. destruct H as [H|H].
      - apply repeat_spec in H. discriminate H.
      - simpl in H. intuition discriminate. }
    split; [unfold get_location_thread, bind; rewrite E; reflexivity|].
    split; [reflexivity|]. split; [reflexivity|].
    intros _. exact Hdata.
Qed.

End Location.

(** * Examples and witnesses

    The calls below are run with [lower_ascii] for [str.lower]; every
    string in them is ASCII. *)

Lemma cache_read_fresh_iff_witness :
  let w := set_now 129 (set_cache (store (Some example_fix) 100 initial_cache) quiet_world) in
  get_current_location lower_ascii true 15 "best" (1 # 4) w = Done (Some example_fix) w.
Proof.
  apply (proj2 (cache_read_fresh_iff lower_ascii 100 129 example_fix quiet_world 15 "best" (1 # 4)
                  eq_refl)).
  reflexivity.
Defined.

(** C4, as stated, fails: with a silent sensor the call at time 100 with
    [timeout=1, polling_interval=1.0] stores its failure at clock 101, and
    the timestamp it stores is 100. *)
Lemma stored_timestamp_not_store_time :
  exists r w',
    get_current_location lower_ascii false 1 "best" 1 quiet_world = Done r w' /\
    now quiet_world == 100 /\
    now w' == 101 /\
    timestamp (_location_cache w') == 100 /\
    ~ timestamp (_location_cache w') == now w'.
Proof.
  eexists. eexists. split; [vm_compute; reflexivity|].
  simpl. repeat split; try reflexivity.
  intros H. vm_compute in H. discriminate H.
Qed.

Lemma stored_timestamp_is_call_time_witness :
  exists r w',
    get_current_location lower_ascii false 1 "best" 1 quiet_world = Done r w' /\
    data (_location_cache w') = r /\
    timestamp (_location_cache w') = now quiet_world /\
    now quiet_world < now w'.
Proof.
  apply (stored_timestamp_is_call_time lower_ascii false 1 "best" 1 quiet_world); reflexivity.
Defined.

(** C3, as stated, fails: with a silent sensor the call times out and the
    description it returns is "Unknown error", not the "Unable to determine
    location" of a sensor error with code [kCLErrorLocationUnknown]. *)
Lemma timeout_description_not_unable :
  exists w',
    get_current_location lower_ascii false 1 "best" 1 quiet_world
    = Done (Some (error_result "Unknown error")) w' /\
    inject_Z 1 <= now w' - now quiet_world /\
    Some (error_result "Unknown error")
    <> Some (error_result "Unable to determine location").
Proof.
  eexists. split; [vm_compute; reflexivity|].
  split; [vm_compute; discriminate | discriminate].
Qed.

(** With a timeout of three seconds the same sensor delivers its fix in
    the third slice, and the fix is returned and cached. *)
Example late_world_fix_in_time :
  exists w',
    get_current_location lower_ascii true 3 "best" 1 late_world = Done (Some example_fix) w' /\
    data (_location_cache w') = Some example_fix /\
    timestamp (_location_cache w') = 100 /\
    now w' == 103.
Proof.
  eexists. split; [vm_compute; reflexivity|]. repeat split.
Qed.

Lemma timeout_returns_unknown_error_witness :
  exists w',
    get_current_location lower_ascii true 2 "best" 1 late_world
    = Done (Some (error_result "Unknown error")) w' /\
    inject_Z (clamp_timeout 2) <= now w' - now late_world.
Proof.
  apply (timeout_returns_unknown_error lower_ascii true 2 "best" 1 late_world); reflexivity.
Defined.

(** C6, as stated, fails: with [use_cache=true] and a fresh cached fix the
    call returns that fix although the authorization state is "denied". *)
Lemma denied_returns_cached_fix :
  authorization denied_world = kCLAuthorizationStatusDenied /\
  get_current_location lower_ascii true 15 "best" (1 # 4) denied_world
  = Done (Some example_fix) denied_world /\
  forall msg, Some example_fix <> Some (error_result msg).
Proof.
  split; [reflexivity|].
  split; [apply get_current_location_hit; reflexivity|].
  intros msg. discriminate.
Qed.

Lemma denied_fast_fail_witness :
  exists w',
    get_current_location lower_ascii false 30 "best" (1 # 4) denied_world
    = Done (Some (error_result "Unknown error")) w' /\
    now w' = now denied_world /\
    exists made,
      calls w' = (made ++ calls denied_world)%list /\
      ~ In StartUpdatingLocation made /\
      forall interval, ~ In (RunUntilDate interval) made.
Proof.
  destruct (denied_fast_fail lower_ascii false 30 "best" (1 # 4) denied_world eq_refl)
    as (r & w' & E & Hr & Hn & _ & Hc).
  rewrite (Hr eq_refl) in E.
  exists w'. split; [exact E|]. split; [exact Hn | exact Hc].
Defined.

Lemma acquisition_trace_witness :
  exists r w' n,
    get_current_location lower_ascii true 2 "Navigation" 1 late_world = Done r w' /\
    (1 <= n)%nat /\
    calls w'
    = (StopUpdatingLocation :: repeat (RunUntilDate 1) n
       ++ [ StartUpdatingLocation; AuthorizationStatus; RequestWhenInUseAuthorization;
            SetDesiredAccuracy kCLLocationAccuracyBestForNavigation;
            SetDistanceFilterNone; SetDelegate; DelegateInit; ManagerInit ])%list.
Proof.
  destruct (acquisition_trace lower_ascii true 2 "Navigation" 1 late_world eq_refl eq_refl)
    as (r & w' & n & E & Hn & Hc & _).
  exists r, w', n. split; [exact E|]. split; [exact Hn|].
  rewrite Hc. rewrite app_nil_r. reflexivity.
Defined.


Lemma error_notification_wins_witness :
  exists w',
    get_current_location lower_ascii true 15 "best" 1 mixed_world
    = Done (Some (error_result
                    "Location services access denied. Please enable in System Preferences."))
           w'.
Proof.
  destruct (error_notification_wins lower_ascii true 15 "best" 1 mixed_world 1
              [DidUpdateLocations example_location []; DidFailWithError {| code := 1 |}]
              [] {| code := 1 |})
    as (e' & w' & Hin & E & _).
  - reflexivity.
  - reflexivity.
  - reflexivity.
  - right. left. reflexivity.
  - reflexivity.
  - exists w'. rewrite E.
    destruct Hin as [Hin|[Hin|[]]]; [discriminate Hin|].
    injection Hin as <-. reflexivity.
Defined.

Lemma most_recent_location_returned_witness :
  exists w',
    get_current_location lower_ascii true 15 "best" 1 late_world = Done (Some example_fix) w' /\
    data (_location_cache w') = Some example_fix.
Proof.
  apply (most_recent_location_returned lower_ascii true 15 "best" 1 late_world 2
           example_location [] []); reflexivity.
Defined.

Lemma accuracy_spelling_witness :
  get_current_location lower_ascii true 15 "Three_Kilometers" (1 # 4) quiet_world
  = get_current_location lower_ascii true 15 "THREE_KILOMETERS" (1 # 4) quiet_world /\
  get_current_location lower_ascii true 15 "Three_Kilometers" (1 # 4) quiet_world
  <> get_current_location lower_ascii true 15 "best" (1 # 4) quiet_world /\
  get_current_location lower_ascii true 15 "city" (1 # 4) quiet_world
  = get_current_location lower_ascii true 15 "best" (1 # 4) quiet_world.
Proof.
  split; [|split].
  - apply (proj1 (accuracy_spelling lower_ascii true 15 (1 # 4) quiet_world
                    "Three_Kilometers" "THREE_KILOMETERS")).
    reflexivity.
  - vm_compute. discriminate.
  - apply (proj2 (accuracy_spelling lower_ascii true 15 (1 # 4) quiet_world "city" "best")).
    + simpl. intuition discriminate.
    + reflexivity.
Defined.

Lemma cache_inv_preserved_witness :
  exists r w',
    get_current_location lower_ascii true 2 "best" 1 late_world = Done r w' /\ cache_inv w'.
Proof.
  apply (proj1 (cache_inv_preserved lower_ascii late_world
                  (cache_inv_initial late_world eq_refl ltac:(simpl; lra)))).
Defined.

Lemma clear_forces_acquisition_witness :
  exists w1,
    clear_location_cache denied_world = Done [("status", VStr "cache_cleared")] w1 /\
    cache_fresh true (_location_cache w1) (now w1) = false.
Proof.
  destruct (clear_forces_acquisition lower_ascii denied_world) as (w1 & E & _ & H).
  exists w1. split; [exact E|].
  exact (proj1 (H w1 15%Z "best" (1 # 4) eq_refl)).
Defined.

Lemma immediate_cached_read_witness :
  exists r w',
    get_current_location lower_ascii false 15 "best" 1 quiet_world = Done r w' /\
    get_current_location lower_ascii true 15 "best" 1 w' = Done r w'.
Proof.
  destruct (immediate_cached_read lower_ascii false 15 "best" 1 quiet_world eq_refl eq_refl)
    as (r & w' & E & Hhit & _).
  exists r, w'. split; [exact E|].
  apply Hhit. revert E. vm_compute. intros E. injection E as _ <-. reflexivity.
Defined.
